(** * GraphApp: the data-access layer of the graph editor (src/GraphApp/app.py)

    A shallow embedding of the CRUD functions of [app.py] over a small model
    of the PostgreSQL store they talk to, followed by the properties of the
    specification that concern them.

    Layout:
    - [Py]  : the Python values the code manipulates (str, dict, truthiness);
    - [Pg]  : the store: namespaces, the two tables, the SQL statements the
              program issues, connections with commit and rollback;
    - [App] : the functions of [app.py], one definition per function;
    - the properties. *)

From Stdlib Require Import ZArith NArith String Ascii.
From stdpp Require Import gmap list sorting.

Open Scope Z_scope.

(* ===================================================================== *)
(** ** Python values *)
(* ===================================================================== *)

Module Py.

(** A Python [str] is a sequence of Unicode code points. *)
Abbreviation pystr := (list N).

(** ASCII literals of the source, as code points. *)
Fixpoint u (s : string) : pystr :=
  match s with
  | EmptyString => []
  | String c s' => N_of_ascii c :: u s'
  end.

(** The characters [str.strip()] removes when called without argument:
    the code points for which [str.isspace()] holds. *)
Definition isspace (c : N) : bool :=
  (((9 <=? c) && (c <=? 13)) || ((28 <=? c) && (c <=? 32))
   || (c =? 133) || (c =? 160) || (c =? 5760)
   || ((8192 <=? c) && (c <=? 8202))
   || (c =? 8232) || (c =? 8233) || (c =? 8239) || (c =? 8287)
   || (c =? 12288))%N.

Fixpoint lstrip (s : pystr) : pystr :=
  match s with
  | [] => []
  | c :: s' => if isspace c then lstrip s' else s
  end.

Definition rstrip (s : pystr) : pystr := rev (lstrip (rev s)).

(** [s.strip()] *)
Definition strip (s : pystr) : pystr := rstrip (lstrip s).

(** [s.replace(old, new)] for a one-character [old]. *)
Definition replace1 (old : N) (new : pystr) (s : pystr) : pystr :=
  flat_map (fun c => if (c =? old)%N then new else [c]) s.

(** The values the functions of the program return. *)
Inductive pyvalue :=
| PyNone
| PyBool (b : bool).

(** Truth value testing, as done by [if], [and] and [not]. *)
Class Truthy (A : Type) := truthy : A -> bool.

#[export] Instance pyvalue_truthy : Truthy pyvalue :=
  fun v => match v with PyNone => false | PyBool b => b end.
#[export] Instance pystr_truthy : Truthy pystr :=
  fun s => match s with [] => false | _ => true end.
#[export] Instance bool_truthy : Truthy bool := fun b => b.

(** A [dict]: keys are unique and iteration follows insertion order;
    assigning to a key that is present keeps its position. *)
Section Dict.
Context {K V : Type} `{EqDecision K}.

Definition dict := list (K * V).

(** [d[k] = v] *)
Fixpoint dict_set (k : K) (v : V) (d : dict) : dict :=
  match d with
  | [] => [(k, v)]
  | (k', v') :: d' =>
      if decide (k = k') then (k, v) :: d' else (k', v') :: dict_set k v d'
  end.

(** [d[k]], [None] standing for the KeyError. *)
Fixpoint dict_get (k : K) (d : dict) : option V :=
  match d with
  | [] => None
  | (k', v') :: d' => if decide (k = k') then Some v' else dict_get k d'
  end.

(** [dict(pairs)] *)
Definition dict_of (pairs : list (K * V)) : dict :=
  fold_left (fun d kv => dict_set kv.1 kv.2 d) pairs [].

(** [d.items()] *)
Definition items (d : dict) : list (K * V) := d.
End Dict.
Arguments dict : clear implicits.

(** [{v: k for k, v in d.items()}] *)
Definition swap_dict {K V : Type} `{EqDecision V} (d : dict K V) : dict V K :=
  fold_left (fun acc kv => dict_set kv.2 kv.1 acc) (items d) [].

End Py.
Export Py.

(* ===================================================================== *)
(** ** Exceptions and the state-and-exception monad *)
(* ===================================================================== *)

(** The exceptions the modelled code can raise: Python's [KeyError], the
    driver's exception classes for the store's errors, and the script stop
    of the UI framework. *)
Inductive error :=
| KeyError (key : pystr)
| InvalidSchemaName (schema : pystr)
| UndefinedTable (schema : pystr) (relation : string)
| UndefinedColumn (column : string)
| UndefinedFunction
| DataError
| UnicodeEncodeError
| UniqueViolation
| SequenceGeneratorLimitExceeded
| StopScript.

Inductive result (A : Type) :=
| Ok (a : A)
| Err (e : error).
Arguments Ok {A} a.
Arguments Err {A} e.

(** A computation over a state [S] that returns normally or raises. *)
Definition M (S A : Type) : Type := S -> result A * S.

#[export] Instance M_ret {S} : MRet (M S) := fun A a s => (Ok a, s).
#[export] Instance M_bind {S} : MBind (M S) := fun A B f m s =>
  match m s with
  | (Ok a, s') => f a s'
  | (Err e, s') => (Err e, s')
  end.

Definition raise {S A} (e : error) : M S A := fun s => (Err e, s).

(** [d[k]] in a computation. *)
Definition getitem {S V} (d : dict pystr V) (k : pystr) : M S V :=
  match dict_get k d with
  | Some v => mret v
  | None => raise (KeyError k)
  end.

(* ===================================================================== *)
(** ** The store *)
(* ===================================================================== *)

Module Pg.

(** Largest value of the [integer] type, hence of a [SERIAL] sequence. *)
Definition INT4_MAX : Z := 2147483647.

(** A row of [nodes (id SERIAL PRIMARY KEY, name TEXT NOT NULL)]. *)
Record node_row := { node_id : Z; node_name : pystr }.

(** A row of [edges (id SERIAL PRIMARY KEY, start_node integer NOT NULL,
    end_node integer NOT NULL, name TEXT NOT NULL)]. *)
Record edge_row :=
  { edge_id : Z; start_node : Z; end_node : Z; edge_name : pystr }.

(** A table with a [SERIAL] key: its rows in store order, and the next
    value of the sequence behind the key. *)
Record table (R : Type) := { rows : list R; serial : Z }.
Arguments rows {R} t.
Arguments serial {R} t.

(** A namespace holds the two tables, each present or not. *)
Record schema :=
  { nodes : option (table node_row); edges : option (table edge_row) }.

(** The database: the namespaces by name. *)
Abbreviation db := (gmap pystr schema).

(** Columns, as a statement can name them. *)
Inductive column (R : Type) :=
| IntCol (get : R -> Z)
| TextCol (get : R -> pystr).
Arguments IntCol {R} get.
Arguments TextCol {R} get.

(** What the program relies on for each of its two tables: the name, where
    it lives in the namespace, its key and its columns. *)
Record relation (R : Type) :=
  { rel_name : string;
    rel_get : schema -> option (table R);
    rel_set : table R -> schema -> schema;
    rel_key : R -> Z;
    rel_columns : list (string * column R) }.
Arguments rel_name {R} r.
Arguments rel_get {R} r.
Arguments rel_set {R} r.
Arguments rel_key {R} r.
Arguments rel_columns {R} r.

Definition nodes_rel : relation node_row :=
  {| rel_name := "nodes";
     rel_get := nodes;
     rel_set := fun t s => {| nodes := Some t; edges := edges s |};
     rel_key := node_id;
     rel_columns := [("id", IntCol node_id); ("name", TextCol node_name)]%string |}.

Definition edges_rel : relation edge_row :=
  {| rel_name := "edges";
     rel_get := edges;
     rel_set := fun t s => {| nodes := nodes s; edges := Some t |};
     rel_key := edge_id;
     rel_columns := [("id", IntCol edge_id); ("start_node", IntCol start_node);
                     ("end_node", IntCol end_node); ("name", TextCol edge_name)]%string |}.

(** *** Statements

    A statement runs against the database of the open transaction. *)

(** [CREATE SCHEMA IF NOT EXISTS sch] *)
Definition create_schema_if_not_exists (sch : pystr) : M db unit := fun d =>
  match d !! sch with
  | Some _ => (Ok tt, d)
  | None => (Ok tt, <[sch := {| nodes := None; edges := None |}]> d)
  end.

(** [CREATE TABLE IF NOT EXISTS sch.rel (id SERIAL PRIMARY KEY, ...)]: a new
    table is empty and its sequence starts at 1. *)
Definition create_table_if_not_exists {R} (rel : relation R) (sch : pystr)
  : M db unit := fun d =>
  match d !! sch with
  | None => (Err (InvalidSchemaName sch), d)
  | Some s =>
      match rel_get rel s with
      | Some _ => (Ok tt, d)
      | None => (Ok tt, <[sch := rel_set rel {| rows := []; serial := 1 |} s]> d)
      end
  end.

(** Name resolution of [sch.rel] in a statement that reads or writes rows. *)
Definition find_table {R} (rel : relation R) (sch : pystr) (d : db)
  : result (schema * table R) :=
  match d !! sch with
  | None => Err (UndefinedTable sch (rel_name rel))
  | Some s =>
      match rel_get rel s with
      | None => Err (UndefinedTable sch (rel_name rel))
      | Some t => Ok (s, t)
      end
  end.

(** [SELECT cols FROM sch.rel], [proj] picking the selected columns. *)
Definition select {R B} (rel : relation R) (sch : pystr) (proj : R -> B)
  : M db (list B) := fun d =>
  match find_table rel sch d with
  | Err e => (Err e, d)
  | Ok (_, t) => (Ok (map proj (rows t)), d)
  end.

(** [INSERT INTO sch.rel (cols) VALUES (...)] with the key left to its
    default: [mk] builds the row from the key drawn from the sequence.  The
    sequence fails once past its maximum; otherwise the value is consumed,
    also when the primary key then rejects the row. *)
Definition insert {R} (rel : relation R) (sch : pystr) (mk : Z -> R)
  : M db unit := fun d =>
  match find_table rel sch d with
  | Err e => (Err e, d)
  | Ok (s, t) =>
      let id := serial t in
      if INT4_MAX <? id then (Err SequenceGeneratorLimitExceeded, d)
      else if bool_decide (id ∈ map (rel_key rel) (rows t)) then
        (Err UniqueViolation,
         <[sch := rel_set rel {| rows := rows t; serial := id + 1 |} s]> d)
      else
        (Ok tt,
         <[sch := rel_set rel {| rows := rows t ++ [mk id]; serial := id + 1 |} s]> d)
  end.

(** Statement parameters, as the driver passes Python values. *)
Inductive value :=
| VInt (z : Z)
| VStr (s : pystr).

(** [WHERE] clauses of the program: [col = %s], [and], [or]. *)
Inductive pred :=
| Eq (col : string) (v : value)
| And (p q : pred)
| Or (p q : pred).

Definition find_column {R} (cols : list (string * column R)) (c : string)
  : option (column R) :=
  snd <$> List.find (fun nc => String.eqb (fst nc) c) cols.

(** Decimal input of an [integer] from text: blanks, sign, digits, within
    the range of the type. *)
Definition pg_blank (c : N) : bool :=
  ((c =? 32) || ((9 <=? c) && (c <=? 13)))%N.

Fixpoint digits (acc : Z) (s : pystr) : option Z :=
  match s with
  | [] => Some acc
  | c :: s' =>
      if ((48 <=? c) && (c <=? 57))%N
      then digits (10 * acc + (Z.of_N c - 48)) s'
      else None
  end.

Definition int4in (s : pystr) : option Z :=
  let fix skip (s : pystr) :=
    match s with
    | [] => []
    | c :: s' => if pg_blank c then skip s' else s
    end in
  let body := rev (skip (rev (skip s))) in
  let signed :=
    match body with
    | [] => None
    | 45%N :: (_ :: _) as ds => Z.opp <$> digits 0 ds
    | 43%N :: (_ :: _) as ds => digits 0 ds
    | ds => digits 0 ds
    end in
  z ← signed;
  if (- INT4_MAX - 1 <=? z) && (z <=? INT4_MAX) then Some z else None.

(** Analysis of a [WHERE] clause against the columns of the table, left to
    right: every column must exist and every comparison must be typed.  It
    happens before any row is looked at. *)
Fixpoint compile_pred {R} (cols : list (string * column R)) (p : pred)
  : result (R -> bool) :=
  match p with
  | Eq c v =>
      match find_column cols c, v with
      | None, _ => Err (UndefinedColumn c)
      | Some (IntCol get), VInt z => Ok (fun r => get r =? z)
      | Some (IntCol get), VStr s =>
          match int4in s with
          | Some z => Ok (fun r => get r =? z)
          | None => Err DataError
          end
      | Some (TextCol get), VStr s => Ok (fun r => bool_decide (get r = s))
      | Some (TextCol get), VInt _ => Err UndefinedFunction
      end
  | And p q =>
      match compile_pred cols p with
      | Err e => Err e
      | Ok f =>
          match compile_pred cols q with
          | Err e => Err e
          | Ok g => Ok (fun r => f r && g r)
          end
      end
  | Or p q =>
      match compile_pred cols p with
      | Err e => Err e
      | Ok f =>
          match compile_pred cols q with
          | Err e => Err e
          | Ok g => Ok (fun r => f r || g r)
          end
      end
  end.

(** [DELETE FROM sch.rel WHERE p] *)
Definition delete_where {R} (rel : relation R) (sch : pystr) (p : pred)
  : M db unit := fun d =>
  match find_table rel sch d with
  | Err e => (Err e, d)
  | Ok (s, t) =>
      match compile_pred (rel_columns rel) p with
      | Err e => (Err e, d)
      | Ok f =>
          (Ok tt,
           <[sch := rel_set rel {| rows := List.filter (fun r => negb (f r)) (rows t);
                                   serial := serial t |} s]> d)
      end
  end.

(** *** Connections and transactions *)

(** A connection taken from the pool: the database as last committed, and
    the database as the open transaction sees it. *)
Record conn := { committed : db; working : db }.

(** [cur.execute(stmt)] *)
Definition execute {A} (stmt : M db A) : M conn A := fun c =>
  let '(r, d) := stmt (working c) in
  (r, {| committed := committed c; working := d |}).

(** What the driver does to a parameter before the statement is sent: a
    Python [int] always goes through; a [str] is refused with [DataError]
    when it holds U+0000, and otherwise encoded as UTF-8, which fails for a
    surrogate (and for a value that is no code point at all). *)
Definition encodable (c : N) : bool :=
  (((c <? 55296) || (57343 <? c)) && (c <=? 1114111))%N.

Definition dump (v : value) : result unit :=
  match v with
  | VInt _ => Ok tt
  | VStr s =>
      if bool_decide (0%N ∈ s) then Err DataError
      else if forallb encodable s then Ok tt
      else Err UnicodeEncodeError
  end.

Fixpoint dump_all (params : list value) : result unit :=
  match params with
  | [] => Ok tt
  | v :: params' =>
      match dump v with
      | Ok _ => dump_all params'
      | Err e => Err e
      end
  end.

(** [cur.execute(stmt, params)]: the parameters are dumped, in order, and
    only then is the statement sent. *)
Definition execute_with {A} (params : list value) (stmt : M db A) : M conn A :=
  fun c =>
    match dump_all params with
    | Ok _ => execute stmt c
    | Err e => (Err e, c)
    end.

(** [conn.commit()] *)
Definition commit : M conn unit := fun c =>
  (Ok tt, {| committed := working c; working := working c |}).

(** Rolling back restores the committed rows and tables; the values a
    sequence has handed out are not given back. *)
Definition keep_serial {R} (old new : option (table R)) : option (table R) :=
  match old, new with
  | Some t, Some t' => Some {| rows := rows t; serial := serial t' |}
  | _, _ => old
  end.

Definition rollback_schema (old new : schema) : schema :=
  {| nodes := keep_serial (nodes old) (nodes new);
     edges := keep_serial (edges old) (edges new) |}.

Definition rollback (old new : db) : db :=
  map_imap (fun k s =>
              Some (match new !! k with
                    | Some s' => rollback_schema s s'
                    | None => s
                    end)) old.

(** [with get_connection() as conn: body]: the block runs in a transaction
    of its own, committed when the block is left normally and rolled back
    when it is left by an exception. *)
Definition with_connection {A} (body : M conn A) : M db A := fun d =>
  match body {| committed := d; working := d |} with
  | (Ok a, c) => (Ok a, working c)
  | (Err e, c) => (Err e, rollback (committed c) (working c))
  end.

End Pg.
Export Pg.

(* ===================================================================== *)
(** ** The program *)
(* ===================================================================== *)

Module App.

(** The two variables of the process environment that name the namespace;
    [None] when unset. *)
Record environ := { PGAPPNAME : option pystr; PGUSER : option pystr }.

(** [os.getenv(name, fallback)] *)
Definition getenv (var : option pystr) (fallback : pystr) : pystr :=
  default fallback var.

(** [get_schema_name()] *)
Definition get_schema_name (env : environ) : pystr :=
  let pgappname := getenv (PGAPPNAME env) (u "my_app") in
  let pguser := replace1 45 [] (getenv (PGUSER env) []) in
  pgappname ++ u "_schema_" ++ pguser.

(** [init_database()] *)
Definition init_database (env : environ) : M db pyvalue :=
  with_connection (
    let schema_name := get_schema_name env in
    execute (create_schema_if_not_exists schema_name);;
    execute (create_table_if_not_exists nodes_rel schema_name);;
    execute (create_table_if_not_exists edges_rel schema_name);;
    commit;;
    mret (PyBool true)).

(** [get_edges()] *)
Definition get_edges (env : environ) : M db (list (Z * Z)) :=
  with_connection (
    let schema := get_schema_name env in
    execute (select edges_rel schema (fun r => (start_node r, end_node r)))).

(** [get_nodes()] *)
Definition get_nodes (env : environ) : M db (list (Z * pystr)) :=
  with_connection (
    let schema := get_schema_name env in
    execute (select nodes_rel schema (fun r => (node_id r, node_name r)))).

(** [add_node(node)] *)
Definition add_node (env : environ) (node : pystr) : M db pyvalue :=
  with_connection (
    let schema := get_schema_name env in
    execute_with [VStr (strip node)]
      (insert nodes_rel schema
         (fun id => {| node_id := id; node_name := strip node |}));;
    commit;;
    mret PyNone).

(** [add_edge(start, end)]: the two subscripts of [d_swap] are evaluated,
    in this order, before the statement is sent. *)
Definition add_edge (env : environ) (start end_ : pystr) : M db pyvalue :=
  node_list ← get_nodes env;
  let node_dict := dict_of node_list in
  let d_swap := swap_dict node_dict in
  with_connection (
    let schema := get_schema_name env in
    s ← getitem d_swap (strip start);
    e ← getitem d_swap (strip end_);
    execute_with [VInt s; VInt e]
      (insert edges_rel schema
         (fun id => {| edge_id := id; start_node := s; end_node := e;
                       edge_name := u " " |}));;
    commit;;
    mret PyNone).

(** [delete_edge(start, end)] *)
Definition delete_edge (env : environ) (start end_ : value) : M db pyvalue :=
  with_connection (
    let schema := get_schema_name env in
    execute_with [start; end_]
      (delete_where edges_rel schema
         (And (Eq "start" start) (Eq "end_node" end_)));;
    commit;;
    mret PyNone).

(** [delete_node(node_id)] *)
Definition delete_node (env : environ) (node_id : value) : M db pyvalue :=
  with_connection (
    let schema := get_schema_name env in
    execute_with [node_id]
      (delete_where nodes_rel schema (Eq "name" node_id));;
    execute_with [node_id; node_id]
      (delete_where edges_rel schema
         (Or (Eq "start" node_id) (Eq "end_node" node_id)));;
    commit;;
    mret PyNone).

(** The two reads that open [display_graph()] (and [display_debug()]), one
    after the other: the pair the page is drawn from. *)
Definition snapshot (env : environ) : M db (list (Z * pystr) * list (Z * Z)) :=
  vertices ← get_nodes env;
  edge_list ← get_edges env;
  mret (vertices, edge_list).

(** *** The page *)

(** What is handed to the visualisation component. *)
Record network :=
  { net_node_ids : list Z; net_labels : list pystr; net_edges : list (Z * Z) }.

(** What a run of the script puts on the page. *)
Inductive ui_event :=
| PageConfig (page_title : pystr)
| Title (text : pystr)
| Markdown (text : pystr)
| Subheader (text : pystr)
| Success (text : pystr)
| Html (graph : network).

(** The state a run of the script acts on: the store and the page. *)
Record world := { store : db; page : list ui_event }.

Definition lift_db {A} (m : M db A) : M world A := fun w =>
  let '(r, d) := m (store w) in (r, {| store := d; page := page w |}).

Definition emit (e : ui_event) : M world unit := fun w =>
  (Ok tt, {| store := store w; page := page w ++ [e] |}).

(** [st.stop()] *)
Definition st_stop : M world unit := raise StopScript.

(** [display_graph()] *)
Definition display_graph (env : environ) : M world network :=
  vertices ← lift_db (get_nodes env);
  edge_list ← lift_db (get_edges env);
  let node_ids := map fst vertices in
  let node_titles := map snd vertices in
  emit (Subheader (u "Interactive Vizualisation in Apps"));;
  mret {| net_node_ids := node_ids; net_labels := node_titles;
          net_edges := edge_list |}.

(** The values the form widgets return in a run of the script. *)
Record form_input :=
  { node_text : pystr; node_submitted : bool;
    start_text : pystr; end_text : pystr; edge_submitted : bool }.

(** [main()] *)
Definition main (env : environ) (inp : form_input) : M world unit :=
  emit (PageConfig (u "Graph Editing App"));;
  emit (Title (128221%N :: u " Graph Editor"));;
  emit (Markdown (u "---"));;
  ok ← lift_db (init_database env);
  (if negb (truthy ok) then st_stop else mret tt);;
  emit (Subheader (u "Add New Node"));;
  (let new_task := node_text inp in
   let submitted := node_submitted inp in
   if truthy submitted && truthy (strip new_task) then
     r ← lift_db (add_node env (strip new_task));
     if truthy r then emit (Success (9989%N :: u " Node added successfully!"))
     else mret tt
   else mret tt);;
  emit (Markdown (u "---"));;
  emit (Subheader (u "Add New Edge"));;
  (let new_task := start_text inp in
   let new_task2 := end_text inp in
   let submitted := edge_submitted inp in
   if truthy submitted && truthy (strip new_task) && truthy (strip new_task2) then
     r ← lift_db (add_edge env (strip new_task) (strip new_task2));
     if truthy r then emit (Success (9989%N :: u " Edge added successfully!"))
     else mret tt
   else mret tt);;
  emit (Markdown (u "---"));;
  strg ← display_graph env;
  emit (Html strg).

End App.
Export App.

(* ===================================================================== *)
(** ** Vocabulary of the properties *)
(* ===================================================================== *)

Module Spec.

(** The id of the node that comes last in a node list among those with the
    given name. *)
Definition last_named (name : pystr) (ns : list (Z * pystr)) : option Z :=
  fst <$> last (filter (fun kv => kv.2 = name) ns).

(** The ASCII letters and digits. *)
Definition alphanumeric (c : N) : bool :=
  (((48 <=? c) && (c <=? 57)) || ((65 <=? c) && (c <=? 90))
   || ((97 <=? c) && (c <=? 122)))%N.

(** The part of the namespace name that follows the application identifier
    and the [_schema_] infix. *)
Definition user_part (env : environ) : pystr :=
  drop (length (getenv (PGAPPNAME env) (u "my_app") ++ u "_schema_"))
       (get_schema_name env).

(** The keys of a table are distinct and were drawn from its sequence. *)
Definition table_inv {R} (rel : relation R) (t : table R) : Prop :=
  NoDup (map (rel_key rel) (rows t)) ∧
  Forall (fun r => rel_key rel r < serial t) (rows t).

Definition schema_inv (s : schema) : Prop :=
  (∀ t, nodes s = Some t → table_inv nodes_rel t) ∧
  (∀ t, edges s = Some t → table_inv edges_rel t).

Definition db_inv (d : db) : Prop := ∀ k s, d !! k = Some s → schema_inv s.

(** The calls a client of the data-access layer can make. *)
Inductive call :=
| InitDatabase
| AddNode (node : pystr)
| AddEdge (start end_ : pystr)
| GetEdges
| GetNodes
| DeleteEdge (start end_ : value)
| DeleteNode (node_id : value).

Definition run (env : environ) (c : call) (d : db) : db :=
  match c with
  | InitDatabase => (init_database env d).2
  | AddNode node => (add_node env node d).2
  | AddEdge start end_ => (add_edge env start end_ d).2
  | GetEdges => (get_edges env d).2
  | GetNodes => (get_nodes env d).2
  | DeleteEdge start end_ => (delete_edge env start end_ d).2
  | DeleteNode node_id => (delete_node env node_id d).2
  end.

(** The databases the program can produce, from an empty one, under any
    environment. *)
Inductive reachable : db → Prop :=
| reachable_empty : reachable ∅
| reachable_call env c d : reachable d → reachable (run env c d).

(** The nodes table of the namespace is there and can take one more row. *)
Definition nodes_ready (env : environ) (d : db) : Prop :=
  ∃ s t, find_table nodes_rel (get_schema_name env) d = Ok (s, t) ∧
         table_inv nodes_rel t ∧ serial t ≤ INT4_MAX.

(** The namespace and its two tables are there. *)
Definition initialised (env : environ) (d : db) : Prop :=
  ∃ s tn te, d !! get_schema_name env = Some s ∧
             nodes s = Some tn ∧ edges s = Some te.

(** A computation on the page that displays no success message: what it
    adds to the page holds no [Success] event. *)
Definition quiet {A} (m : M world A) : Prop :=
  ∀ w, ∃ evs, page (m w).2 = page w ++ evs ∧ ∀ text, Success text ∉ evs.

(** *** A small store to try the program on *)

Definition demo_env : environ :=
  {| PGAPPNAME := Some (u "graph"); PGUSER := Some (u "a1b2-c3d4") |}.

(** The store after [init_database()], [add_node("A")], [add_node("B")] and
    [add_edge("A", "B")], starting from an empty database. *)
Definition demo_db : db :=
  run demo_env (AddEdge (u "A") (u "B"))
    (run demo_env (AddNode (u "B"))
       (run demo_env (AddNode (u "A"))
          (run demo_env InitDatabase ∅))).

End Spec.
Export Spec.

(* ===================================================================== *)
(** ** Vocabulary of the further properties *)
(* ===================================================================== *)

Module Steps.

(** A string of whitespace only (the empty string included). *)
Definition blank (s : pystr) : Prop := Forall (fun c => isspace c = true) s.

(** A string that does not begin with whitespace. *)
Definition clean_start (s : pystr) : Prop :=
  ∀ c, head s = Some c → isspace c = false.

(** A string the driver accepts as a parameter. *)
Definition sendable (s : pystr) : Prop := dump (VStr s) = Ok tt.

(** The edges table of the namespace is there and can take one more row. *)
Definition edges_ready (env : environ) (d : db) : Prop :=
  ∃ s t, find_table edges_rel (get_schema_name env) d = Ok (s, t) ∧
         table_inv edges_rel t ∧ serial t ≤ INT4_MAX.

(** A table as it comes out of [CREATE TABLE IF NOT EXISTS]. *)
Definition new_table {R} : table R := {| rows := []; serial := 1 |}.

(** What a call does to the namespace it works in when it changes the
    database, [o] being the namespace before the call ([None] when it is not
    there): [init_database] creates what is missing, [add_node] appends a
    node row with the trimmed name, [add_edge] appends an edge row between
    ids of the nodes table; either insertion may also just use up a value of
    the sequence. *)
Inductive schema_step (o : option schema) : call → schema → Prop :=
| step_init :
    schema_step o InitDatabase
      {| nodes := Some (default new_table (o ≫= nodes));
         edges := Some (default new_table (o ≫= edges)) |}
| step_node s t node :
    o = Some s → nodes s = Some t →
    serial t ≤ INT4_MAX → serial t ∉ map node_id (rows t) →
    schema_step o (AddNode node)
      {| nodes := Some {| rows := rows t ++ [{| node_id := serial t;
                                                node_name := strip node |}];
                          serial := serial t + 1 |};
         edges := edges s |}
| step_node_skip s t node :
    o = Some s → nodes s = Some t → serial t ≤ INT4_MAX →
    schema_step o (AddNode node)
      {| nodes := Some {| rows := rows t; serial := serial t + 1 |};
         edges := edges s |}
| step_edge s tn t i j start end_ :
    o = Some s → nodes s = Some tn → edges s = Some t →
    serial t ≤ INT4_MAX → serial t ∉ map edge_id (rows t) →
    i ∈ map node_id (rows tn) → j ∈ map node_id (rows tn) →
    schema_step o (AddEdge start end_)
      {| nodes := nodes s;
         edges := Some {| rows := rows t ++ [{| edge_id := serial t;
                                                start_node := i; end_node := j;
                                                edge_name := u " " |}];
                          serial := serial t + 1 |} |}
| step_edge_skip s t start end_ :
    o = Some s → edges s = Some t → serial t ≤ INT4_MAX →
    schema_step o (AddEdge start end_)
      {| nodes := nodes s;
         edges := Some {| rows := rows t; serial := serial t + 1 |} |}.

(** Keys come in increasing order, start at 1, and the sequence is at most
    one past the largest [integer]. *)
Definition table_sorted {R} (rel : relation R) (t : table R) : Prop :=
  StronglySorted Z.lt (map (rel_key rel) (rows t)) ∧
  Forall (fun r => 1 ≤ rel_key rel r < serial t) (rows t) ∧
  1 ≤ serial t ≤ INT4_MAX + 1.

(** What holds of every namespace the program produces: sorted keys in both
    tables, trimmed node names, and edges that end at nodes of the nodes
    table. *)
Record schema_good (s : schema) : Prop :=
  { good_nodes : ∀ t, nodes s = Some t → table_sorted nodes_rel t;
    good_edges : ∀ t, edges s = Some t → table_sorted edges_rel t;
    good_names : ∀ t r, nodes s = Some t → r ∈ rows t →
                        strip (node_name r) = node_name r;
    good_refs : ∀ t e, edges s = Some t → e ∈ rows t →
                       ∃ tn, nodes s = Some tn ∧
                             start_node e ∈ map node_id (rows tn) ∧
                             end_node e ∈ map node_id (rows tn) }.

Definition db_good (d : db) : Prop := ∀ k s, d !! k = Some s → schema_good s.

(** The fixed part of the page, drawn before the graph in every run that
    gets that far without a success message. *)
Definition page_frame : list ui_event :=
  [ PageConfig (u "Graph Editing App");
    Title (128221%N :: u " Graph Editor");
    Markdown (u "---");
    Subheader (u "Add New Node");
    Markdown (u "---");
    Subheader (u "Add New Edge");
    Markdown (u "---");
    Subheader (u "Interactive Vizualisation in Apps") ].

(** The network drawn from a node list and an edge list. *)
Definition network_of (ns : list (Z * pystr)) (es : list (Z * Z)) : network :=
  {| net_node_ids := map fst ns; net_labels := map snd ns; net_edges := es |}.

(** The node form, respectively the edge form, passes the test of [main]. *)
Definition node_form_taken (inp : form_input) : bool :=
  node_submitted inp && truthy (strip (node_text inp)).

Definition edge_form_taken (inp : form_input) : bool :=
  edge_submitted inp && truthy (strip (start_text inp))
  && truthy (strip (end_text inp)).

End Steps.
Export Steps.

(* ===================================================================== *)
(** ** Properties *)
(* ===================================================================== *)

(** *** Transactions *)

Lemma keep_serial_same {R} (o : option (table R)) : keep_serial o o = o.
Proof. by destruct o as [[]|]. Qed.

Lemma rollback_schema_same s : rollback_schema s s = s.
Proof. destruct s. unfold rollback_schema; simpl. by rewrite !keep_serial_same. Qed.

(** Rolling back onto a database whose sequences did not move, and whose
    namespaces are all still there, gives back the committed database. *)
Lemma rollback_restores (old new : db) :
  (∀ k s, old !! k = Some s →
          ∃ s', new !! k = Some s' ∧ rollback_schema s s' = s) →
  rollback old new = old.
Proof.
  intros H. apply map_eq. intros k. unfold rollback.
  rewrite map_lookup_imap.
  destruct (old !! k) as [s|] eqn:E; simpl; [|done].
  destruct (H k s E) as (s' & -> & ->). done.
Qed.

Lemma rollback_same (d : db) : rollback d d = d.
Proof.
  apply rollback_restores. intros k s E. exists s. split; [done|].
  apply rollback_schema_same.
Qed.

(** A block that only runs a statement which leaves the database alone
    leaves the database alone, whether the statement fails or not. *)
Lemma with_connection_query {A} (q : M db A) (d : db) :
  (q d).2 = d →
  with_connection (execute q) d = ((q d).1, d).
Proof.
  intros H. unfold with_connection, execute. simpl.
  destruct (q d) as [[a|e] d'] eqn:E; simpl in *; subst; [done|].
  by rewrite rollback_same.
Qed.

Lemma select_state {R B} (rel : relation R) (sch : pystr) (proj : R -> B) (d : db) :
  (select rel sch proj d).2 = d.
Proof. unfold select. by destruct (find_table rel sch d) as [[? ?]|]. Qed.

Lemma get_nodes_eq env d :
  get_nodes env d =
    (match find_table nodes_rel (get_schema_name env) d with
     | Ok (_, t) => Ok (map (fun r => (node_id r, node_name r)) (rows t))
     | Err e => Err e
     end, d).
Proof.
  unfold get_nodes. rewrite with_connection_query by apply select_state.
  unfold select. by destruct (find_table _ _ d) as [[? ?]|].
Qed.

Lemma get_edges_eq env d :
  get_edges env d =
    (match find_table edges_rel (get_schema_name env) d with
     | Ok (_, t) => Ok (map (fun r => (start_node r, end_node r)) (rows t))
     | Err e => Err e
     end, d).
Proof.
  unfold get_edges. rewrite with_connection_query by apply select_state.
  unfold select. by destruct (find_table _ _ d) as [[? ?]|].
Qed.

(** *** Reads *)

(** C10. [get_nodes] and [get_edges] are pure reads: whatever the database,
    and whether the read succeeds or raises, the database after the call is
    the database before it, nodes table and edges table included. *)
Theorem reads_leave_store (env : environ) (d : db) :
  (get_nodes env d).2 = d ∧ (get_edges env d).2 = d.
Proof. by rewrite get_nodes_eq, get_edges_eq. Qed.

Lemma snapshot_eq env d :
  snapshot env d =
    (match (get_nodes env d).1, (get_edges env d).1 with
     | Ok vertices, Ok edge_list => Ok (vertices, edge_list)
     | Err e, _ => Err e
     | Ok _, Err e => Err e
     end, d).
Proof.
  unfold snapshot, mbind, M_bind.
  rewrite get_nodes_eq; simpl.
  destruct (find_table nodes_rel _ d) as [[? ?]|]; [|done].
  rewrite get_edges_eq; simpl.
  by destruct (find_table edges_rel _ d) as [[? ?]|].
Qed.

(** C6. Taking the snapshot a second time, on the database the first one
    left and with no write in between, returns the same node list and the
    same edge list (or raises the same exception), and again leaves the
    database as it was. *)
Theorem snapshot_twice (env : environ) (d : db) :
  snapshot env (snapshot env d).2 = snapshot env d ∧ (snapshot env d).2 = d.
Proof. by rewrite !snapshot_eq. Qed.

(** *** Dictionaries *)

Section DictFacts.
Context {A K V : Type} `{EqDecision K}.
Variables (key : A → K) (val : A → V).

(** Filling a dictionary from a sequence, one assignment per element. *)
Local Abbreviation fill l acc :=
  (fold_left (fun d x => dict_set (key x) (val x) d) l acc).

Lemma dict_get_set (k k' : K) (v : V) (d : dict K V) :
  dict_get k (dict_set k' v d) = if decide (k = k') then Some v else dict_get k d.
Proof.
  induction d as [|[k0 v0] d IH]; simpl.
  - by destruct (decide (k = k')).
  - destruct (decide (k' = k0)) as [->|Hne]; simpl.
    + by destruct (decide (k = k0)).
    + destruct (decide (k = k0)) as [->|]; [|done].
      by destruct (decide (k0 = k')); [congruence|].
Qed.

Lemma dict_set_fresh (k : K) (v : V) (d : dict K V) :
  k ∉ map fst d → dict_set k v d = d ++ [(k, v)].
Proof.
  induction d as [|[k0 v0] d IH]; simpl; [done|].
  intros Hk. apply not_elem_of_cons in Hk as [Hne Hk].
  destruct (decide (k = k0)); [done|]. by rewrite IH.
Qed.

Lemma elem_of_dict_set (x : K * V) k v d :
  x ∈ dict_set k v d → x = (k, v) ∨ x ∈ d.
Proof.
  induction d as [|[k0 v0] d IH]; simpl.
  - intros ->%list_elem_of_singleton. by left.
  - destruct (decide (k = k0)).
    + intros [->|?]%elem_of_cons; [by left|right; by right].
    + intros [->|?]%elem_of_cons; [right; by left|].
      destruct IH as [?|?]; [done|by left|right; by right].
Qed.

(** Last assignment wins: a key reads as the value of the last element of
    the sequence that carries it, or as before when none does. *)
Lemma dict_get_fill (k : K) (l : list A) (acc : dict K V) :
  dict_get k (fill l acc) =
    match last (filter (fun x => key x = k) l) with
    | Some x => Some (val x)
    | None => dict_get k acc
    end.
Proof.
  revert acc. induction l as [|x l IH]; intros acc; [done|].
  simpl. rewrite IH, dict_get_set.
  rewrite filter_cons. destruct (decide (key x = k)) as [Hk|Hk].
  - rewrite last_cons. destruct (last _); [done|].
    by destruct (decide (k = key x)); [|congruence].
  - destruct (last _); [done|].
    by destruct (decide (k = key x)); [congruence|].
Qed.

(** The entries of the dictionary come from the sequence or were there. *)
Lemma elem_of_fill (x : K * V) (l : list A) (acc : dict K V) :
  x ∈ fill l acc → x ∈ acc ∨ ∃ a, a ∈ l ∧ x = (key a, val a).
Proof.
  revert acc. induction l as [|a l IH]; intros acc; [by left|].
  simpl. intros [Hx|(b & Hb & ->)]%IH.
  - apply elem_of_dict_set in Hx as [->|?]; [|by left].
    right. exists a. split; [by left|done].
  - right. exists b. split; [by right|done].
Qed.

(** With distinct keys nothing is overwritten: the dictionary lists the
    sequence in order. *)
Lemma fill_NoDup (l : list A) (acc : dict K V) :
  NoDup (map fst acc ++ map key l) →
  fill l acc = acc ++ map (fun a => (key a, val a)) l.
Proof.
  revert acc. induction l as [|a l IH]; intros acc Hnd.
  - by rewrite app_nil_r.
  - simpl.
    assert (key a ∉ map fst acc) as Hfresh.
    { apply NoDup_app in Hnd as (_ & Hdis & _). intros Hin.
      apply (Hdis _ Hin). by left. }
    rewrite dict_set_fresh by done. rewrite IH.
    + by rewrite <- app_assoc.
    + rewrite map_app; simpl. by rewrite <- app_assoc.
Qed.

End DictFacts.

(** *** Name resolution in [add_edge] *)

(** Reading [d_swap[name]] gives the id that comes last, among the entries
    of [node_dict] with that name. *)
Lemma d_swap_get (ns : list (Z * pystr)) (name : pystr) :
  dict_get name (swap_dict (dict_of ns)) = last_named name (items (dict_of ns)).
Proof.
  unfold swap_dict. rewrite (dict_get_fill snd fst). unfold last_named.
  by destruct (last _).
Qed.

Lemma dict_of_NoDup (ns : list (Z * pystr)) :
  NoDup (map fst ns) → dict_of ns = ns.
Proof.
  intros Hnd. unfold dict_of. rewrite (fill_NoDup fst snd) by done. simpl.
  induction ns as [|[i n] ns IH]; simpl; [done|].
  f_equal. apply IH. by apply NoDup_cons in Hnd as [_ ?].
Qed.

Lemma elem_of_dict_of (ns : list (Z * pystr)) (x : Z * pystr) :
  x ∈ dict_of ns → x ∈ ns.
Proof.
  unfold dict_of. intros [Hx|(a & Ha & ->)]%(elem_of_fill fst snd).
  - by apply elem_of_nil in Hx.
  - by destruct a.
Qed.

Lemma d_swap_get_None (ns : list (Z * pystr)) (name : pystr) :
  name ∉ map snd ns → dict_get name (swap_dict (dict_of ns)) = None.
Proof.
  intros Hn. rewrite d_swap_get. unfold last_named, items.
  destruct (last _) as [[i n]|] eqn:E; [|done]. exfalso.
  apply last_Some_elem_of, list_elem_of_filter in E as [Hname Hin].
  simpl in Hname; subst n. apply elem_of_dict_of in Hin.
  apply Hn. change name with (snd (i, name)). by apply list_elem_of_fmap_2.
Qed.

(** C1. When the (trimmed) start name or the (trimmed) end name matches no
    node of the current node list, [add_edge] raises [KeyError] (the
    specification's NameNotFound) on one of the two names, and nothing is
    inserted: the subscripts are evaluated before the statement is sent, so
    the database, and with it the edge list, is as before. *)
Theorem add_edge_unknown_name
    (env : environ) (start end_ : pystr) (d : db) (ns : list (Z * pystr)) :
  get_nodes env d = (Ok ns, d) →
  strip start ∉ map snd ns ∨ strip end_ ∉ map snd ns →
  ∃ key, (key = strip start ∨ key = strip end_) ∧
         add_edge env start end_ d = (Err (KeyError key), d) ∧
         get_edges env (add_edge env start end_ d).2 = get_edges env d.
Proof.
  intros Hget Hmiss.
  assert (∃ key, (key = strip start ∨ key = strip end_) ∧
                 add_edge env start end_ d = (Err (KeyError key), d))
    as (key & Hkey & Hadd).
  { unfold add_edge, mbind, M_bind. rewrite Hget.
    unfold with_connection, getitem; simpl.
    destruct (dict_get (strip start) _) as [s|] eqn:Es; simpl.
    - destruct Hmiss as [Hs|He].
      + by rewrite d_swap_get_None in Es.
      + rewrite d_swap_get_None by done. simpl.
        exists (strip end_). split; [by right|]. by rewrite rollback_same.
    - exists (strip start). split; [by left|]. by rewrite rollback_same. }
  exists key. by rewrite Hadd.
Qed.

Lemma last_named_elem (ns : list (Z * pystr)) (name : pystr) (i : Z) :
  last_named name ns = Some i → (i, name) ∈ ns.
Proof.
  unfold last_named. destruct (last _) as [[j n]|] eqn:E; [|done].
  intros [= ->].
  apply last_Some_elem_of, list_elem_of_filter in E as [Hn Hin].
  by simpl in Hn; subst n.
Qed.

Lemma NoDup_fst_functional {A B} (l : list (A * B)) x y1 y2 :
  NoDup (map fst l) → (x, y1) ∈ l → (x, y2) ∈ l → y1 = y2.
Proof.
  induction l as [|[a b] l IH]; simpl; intros Hnd H1 H2.
  - by apply elem_of_nil in H1.
  - apply NoDup_cons in Hnd as [Ha Hnd].
    assert (∀ y, (a, y) ∈ l → False) as Hout.
    { intros y Hy. apply Ha. change a with (fst (a, y)).
      by apply list_elem_of_fmap_2. }
    apply elem_of_cons in H1 as [H1|H1]; apply elem_of_cons in H2 as [H2|H2];
      simplify_eq; try done.
    + by destruct (Hout _ H2).
    + by destruct (Hout _ H1).
    + by apply IH.
Qed.

(** C3. In a node list with distinct ids (the primary key) where two or
    more nodes carry the same name, that name resolves to exactly one id:
    the id of the node that comes last in the list among them.  No name
    resolves to any of the other ids that carry it. *)
Theorem resolution_last_wins (ns : list (Z * pystr)) (name : pystr) :
  NoDup (map fst ns) →
  (2 ≤ length (filter (fun kv => kv.2 = name) ns))%nat →
  ∃ i, dict_get name (swap_dict (dict_of ns)) = Some i ∧
       last_named name ns = Some i ∧
       ∀ j, (j, name) ∈ ns → j ≠ i →
            ∀ other, dict_get other (swap_dict (dict_of ns)) ≠ Some j.
Proof.
  intros Hnd Hlen.
  assert (∀ m, dict_get m (swap_dict (dict_of ns)) = last_named m ns) as Hres.
  { intros m. by rewrite d_swap_get, dict_of_NoDup. }
  destruct (last_named name ns) as [i|] eqn:Ei.
  - exists i. split; [by rewrite Hres|]. split; [done|].
    intros j Hj Hne other Hother. rewrite Hres in Hother.
    assert (other = name) as ->.
    { apply last_named_elem in Hother.
      by apply (NoDup_fst_functional ns j). }
    congruence.
  - exfalso. unfold last_named in Ei.
    destruct (last (filter _ ns)) eqn:El; [done|].
    apply last_None in El. rewrite El in Hlen. simpl in Hlen. lia.
Qed.

(** *** Writes *)

Lemma rollback_insert (d : db) (k : pystr) (s s' : schema) :
  d !! k = Some s →
  rollback d (<[k := s']> d) = <[k := rollback_schema s s']> d.
Proof.
  intros Hk. apply map_eq. intros i. unfold rollback.
  rewrite map_lookup_imap.
  destruct (decide (k = i)) as [<-|Hne].
  - rewrite Hk; simpl. by rewrite !lookup_insert_eq.
  - rewrite !lookup_insert_ne by done.
    destruct (d !! i) as [si|]; simpl; [|done].
    by rewrite rollback_schema_same.
Qed.

Lemma find_table_Ok {R} (rel : relation R) (sch : pystr) (d : db) s t :
  find_table rel sch d = Ok (s, t) ↔ d !! sch = Some s ∧ rel_get rel s = Some t.
Proof.
  unfold find_table. split.
  - destruct (d !! sch) as [s0|]; [|done].
    destruct (rel_get rel s0) eqn:E; [|done]. by intros [= <- <-].
  - by intros [-> ->].
Qed.

(** What [add_node] does, case by case. *)
Lemma add_node_eq (env : environ) (node : pystr) (d : db) :
  add_node env node d =
    match dump (VStr (strip node)),
          find_table nodes_rel (get_schema_name env) d with
    | Err e, _ => (Err e, d)
    | Ok _, Err e => (Err e, d)
    | Ok _, Ok (s, t) =>
        if INT4_MAX <? serial t then (Err SequenceGeneratorLimitExceeded, d)
        else if bool_decide (serial t ∈ map node_id (rows t)) then
          (Err UniqueViolation,
           <[get_schema_name env :=
               {| nodes := Some {| rows := rows t; serial := serial t + 1 |};
                  edges := edges s |}]> d)
        else
          (Ok PyNone,
           <[get_schema_name env :=
               {| nodes := Some {| rows := rows t ++
                                     [{| node_id := serial t;
                                         node_name := strip node |}];
                                   serial := serial t + 1 |};
                  edges := edges s |}]> d)
    end.
Proof.
  unfold add_node, with_connection, execute_with, execute, insert, mbind,
    M_bind, dump_all.
  destruct (dump (VStr (strip node))) as [[]|e0]; simpl;
    [|by rewrite rollback_same].
  destruct (find_table nodes_rel _ d) as [[s t]|e] eqn:E; simpl.
  - apply find_table_Ok in E as [Hs Ht].
    destruct (INT4_MAX <? serial t); simpl; [by rewrite rollback_same|].
    destruct (bool_decide _); simpl; [|done].
    rewrite (rollback_insert _ _ s) by done. do 2 f_equal.
    unfold rollback_schema; simpl in *. by rewrite Ht, keep_serial_same.
  - by rewrite rollback_same.
Qed.

(** What the insertion of [add_edge] does once both names are resolved. *)
Lemma add_edge_eq (env : environ) (start end_ : pystr) (d : db) :
  add_edge env start end_ d =
    match (get_nodes env d).1 with
    | Err e => (Err e, d)
    | Ok node_list =>
        let d_swap := swap_dict (dict_of node_list) in
        match dict_get (strip start) d_swap, dict_get (strip end_) d_swap with
        | None, _ => (Err (KeyError (strip start)), d)
        | Some _, None => (Err (KeyError (strip end_)), d)
        | Some i, Some j =>
            match find_table edges_rel (get_schema_name env) d with
            | Err e => (Err e, d)
            | Ok (s, t) =>
                if INT4_MAX <? serial t
                then (Err SequenceGeneratorLimitExceeded, d)
                else if bool_decide (serial t ∈ map edge_id (rows t)) then
                  (Err UniqueViolation,
                   <[get_schema_name env :=
                       {| nodes := nodes s;
                          edges := Some {| rows := rows t;
                                           serial := serial t + 1 |} |}]> d)
                else
                  (Ok PyNone,
                   <[get_schema_name env :=
                       {| nodes := nodes s;
                          edges := Some {| rows := rows t ++
                                             [{| edge_id := serial t;
                                                 start_node := i; end_node := j;
                                                 edge_name := u " " |}];
                                           serial := serial t + 1 |} |}]> d)
            end
        end
    end.
Proof.
  unfold add_edge, mbind, M_bind. rewrite get_nodes_eq; simpl.
  destruct (find_table nodes_rel _ d) as [[sn tn]|e]; [|done].
  unfold with_connection, getitem, execute_with, execute, insert, mbind,
    M_bind; simpl.
  destruct (dict_get (strip start) _) as [i|]; simpl;
    [|by rewrite rollback_same].
  destruct (dict_get (strip end_) _) as [j|]; simpl;
    [|by rewrite rollback_same].
  destruct (find_table edges_rel _ d) as [[s t]|e] eqn:E; simpl.
  - apply find_table_Ok in E as [Hs Ht].
    destruct (INT4_MAX <? serial t); simpl; [by rewrite rollback_same|].
    destruct (bool_decide _); simpl; [|done].
    rewrite (rollback_insert _ _ s) by done. do 2 f_equal.
    unfold rollback_schema; simpl in *. by rewrite Ht, keep_serial_same.
  - by rewrite rollback_same.
Qed.

Lemma find_table_insert_nodes (d : db) (sch : pystr) (t : table node_row) e :
  find_table nodes_rel sch (<[sch := {| nodes := Some t; edges := e |}]> d)
  = Ok ({| nodes := Some t; edges := e |}, t).
Proof. apply find_table_Ok. by rewrite lookup_insert_eq. Qed.

Lemma find_table_insert_edges (d : db) (sch : pystr) (t : table edge_row) n :
  find_table edges_rel sch (<[sch := {| nodes := n; edges := Some t |}]> d)
  = Ok ({| nodes := n; edges := Some t |}, t).
Proof. apply find_table_Ok. by rewrite lookup_insert_eq. Qed.

Lemma serial_fresh {R} (rel : relation R) (t : table R) :
  table_inv rel t → serial t ∉ map (rel_key rel) (rows t).
Proof.
  intros [_ Hlt] Hin. apply list_elem_of_fmap in Hin as (r & Hr & Hin).
  rewrite Forall_forall in Hlt. specialize (Hlt r Hin). lia.
Qed.

(** A successful [add_node] returned [None] and appended one row. *)
Lemma add_node_success (env : environ) (node : pystr) (d d' : db) v :
  add_node env node d = (Ok v, d') →
  v = PyNone ∧
  ∃ ns id, get_nodes env d = (Ok ns, d) ∧
           get_nodes env d' = (Ok (ns ++ [(id, strip node)]), d').
Proof.
  rewrite add_node_eq, get_nodes_eq.
  destruct (dump (VStr (strip node))) as [[]|e0]; [|done].
  destruct (find_table nodes_rel _ d) as [[s t]|e]; [|done].
  destruct (INT4_MAX <? serial t); [done|].
  destruct (bool_decide _); [done|].
  intros [= <- <-]. split; [done|]. eexists _, (serial t). split; [done|].
  rewrite get_nodes_eq, find_table_insert_nodes; simpl. by rewrite map_app.
Qed.

(** A successful [add_edge] returned [None] and appended one row, between
    ids of nodes that carry the two (trimmed) names. *)
Lemma add_edge_success (env : environ) (start end_ : pystr) (d d' : db) v :
  add_edge env start end_ d = (Ok v, d') →
  v = PyNone ∧
  ∃ ns es i j, get_nodes env d = (Ok ns, d) ∧
               (i, strip start) ∈ ns ∧ (j, strip end_) ∈ ns ∧
               get_edges env d = (Ok es, d) ∧
               get_edges env d' = (Ok (es ++ [(i, j)]), d').
Proof.
  rewrite add_edge_eq. rewrite get_nodes_eq at 1; simpl.
  destruct (find_table nodes_rel _ d) as [[sn tn]|e] eqn:En; [|done].
  destruct (dict_get (strip start) _) as [i|] eqn:Ei; [|done].
  destruct (dict_get (strip end_) _) as [j|] eqn:Ej; [|done].
  destruct (find_table edges_rel _ d) as [[s t]|e] eqn:Ee; [|done].
  destruct (INT4_MAX <? serial t); [done|].
  destruct (bool_decide _); [done|].
  intros [= <- <-]. split; [done|].
  rewrite d_swap_get in Ei, Ej.
  apply last_named_elem, elem_of_dict_of in Ei, Ej.
  eexists _, _, i, j. rewrite get_nodes_eq, En.
  split; [done|]. split; [done|]. split; [done|].
  rewrite !get_edges_eq, Ee, find_table_insert_edges; simpl.
  by rewrite map_app.
Qed.

(** *** The page *)

Lemma quiet_ret {A} (a : A) : quiet (mret a).
Proof. intros w. exists []. split; [by rewrite app_nil_r|]. intros ?. apply not_elem_of_nil. Qed.

Lemma quiet_raise {A} (e : error) : quiet (raise e : M world A).
Proof. intros w. exists []. split; [by rewrite app_nil_r|]. intros ?. apply not_elem_of_nil. Qed.

Lemma quiet_emit (e : ui_event) : (∀ text, e ≠ Success text) → quiet (emit e).
Proof.
  intros He w. exists [e]. split; [done|].
  intros text Hin%list_elem_of_singleton. by apply (He text).
Qed.

Lemma quiet_lift_db {A} (m : M db A) : quiet (lift_db m).
Proof.
  intros w. exists []. unfold lift_db. destruct (m (store w)); simpl.
  split; [by rewrite app_nil_r|]. intros ?. apply not_elem_of_nil.
Qed.

(** Sequencing, with what is known of the value the first part returns. *)
Lemma quiet_bind {A B} (Q : A → Prop) (m : M world A) (k : A → M world B) :
  quiet m →
  (∀ w a w', m w = (Ok a, w') → Q a) →
  (∀ a, Q a → quiet (k a)) →
  quiet (m ≫= k).
Proof.
  intros Hm HQ Hk w. unfold mbind, M_bind.
  destruct (Hm w) as (evs1 & Hp1 & Hn1).
  destruct (m w) as [[a|e] w1] eqn:E; simpl in *.
  - destruct (Hk a (HQ _ _ _ E) w1) as (evs2 & Hp2 & Hn2).
    exists (evs1 ++ evs2). rewrite Hp2, Hp1, app_assoc. split; [done|].
    intros text [?|?]%elem_of_app; [by apply (Hn1 text)|by apply (Hn2 text)].
  - by exists evs1.
Qed.

Lemma quiet_seq {A B} (m : M world A) (k : A → M world B) :
  quiet m → (∀ a, quiet (k a)) → quiet (m ≫= k).
Proof. intros Hm Hk. apply (quiet_bind (fun _ => True)); auto. Qed.

Lemma lift_db_Ok {A} (m : M db A) (w w' : world) (a : A) :
  lift_db m w = (Ok a, w') → m (store w) = (Ok a, store w').
Proof.
  unfold lift_db. destruct (m (store w)) as [r d]. by intros [= -> <-].
Qed.

Lemma display_graph_quiet (env : environ) : quiet (display_graph env).
Proof.
  unfold display_graph.
  apply quiet_seq; [apply quiet_lift_db|intros vertices].
  apply quiet_seq; [apply quiet_lift_db|intros edge_list].
  apply quiet_seq; [by apply quiet_emit|intros _]. apply quiet_ret.
Qed.

(** A run of the script displays no success message, whatever the forms
    returned and whatever the store holds. *)
Lemma main_quiet (env : environ) (inp : form_input) : quiet (main env inp).
Proof.
  unfold main.
  apply quiet_seq; [by apply quiet_emit|intros _].
  apply quiet_seq; [by apply quiet_emit|intros _].
  apply quiet_seq; [by apply quiet_emit|intros _].
  apply quiet_seq; [apply quiet_lift_db|intros ok].
  apply quiet_seq;
    [destruct (negb _); [apply quiet_raise|apply quiet_ret]|intros _].
  apply quiet_seq; [by apply quiet_emit|intros _].
  apply quiet_seq; [|intros _].
  { destruct (_ && _); [|apply quiet_ret].
    apply (quiet_bind (fun r => r = PyNone)); [apply quiet_lift_db| |].
    - intros w a w' Hrun%lift_db_Ok. by apply add_node_success in Hrun as [-> _].
    - intros r ->. apply quiet_ret. }
  apply quiet_seq; [by apply quiet_emit|intros _].
  apply quiet_seq; [by apply quiet_emit|intros _].
  apply quiet_seq; [|intros _].
  { destruct (_ && _); [|apply quiet_ret].
    apply (quiet_bind (fun r => r = PyNone)); [apply quiet_lift_db| |].
    - intros w a w' Hrun%lift_db_Ok. by apply add_edge_success in Hrun as [-> _].
    - intros r ->. apply quiet_ret. }
  apply quiet_seq; [by apply quiet_emit|intros _].
  apply quiet_seq; [apply display_graph_quiet|intros strg].
  by apply quiet_emit.
Qed.


(** *** Initialisation *)

(** [init_database] always returns [True]; it leaves a namespace that holds
    the tables it had, and new empty ones for those it lacked. *)
Lemma init_database_eq (env : environ) (d : db) :
  init_database env d =
    (Ok (PyBool true),
     let s := default {| nodes := None; edges := None |}
                      (d !! get_schema_name env) in
     <[get_schema_name env :=
         {| nodes := Some (default {| rows := []; serial := 1 |} (nodes s));
            edges := Some (default {| rows := []; serial := 1 |} (edges s)) |}]> d).
Proof.
  unfold init_database, with_connection, execute, commit, mbind, M_bind,
    create_schema_if_not_exists, create_table_if_not_exists; simpl.
  destruct (d !! get_schema_name env) as [[[tn|] [te|]]|] eqn:E; simpl;
    rewrite ?E, ?lookup_insert_eq; simpl;
    rewrite ?E, ?lookup_insert_eq; simpl;
    rewrite ?insert_insert_eq; try done.
  by rewrite insert_id.
Qed.


(** *** Deletions *)

(** [delete_edge] never deletes: it raises, and the database is as before.
    With parameters the driver accepts and the edges table in place, the
    exception is the one for the column [start], which the table does not
    have. *)
Lemma delete_edge_eq (env : environ) (start end_ : value) (d : db) :
  delete_edge env start end_ d =
    (match dump_all [start; end_],
           find_table edges_rel (get_schema_name env) d with
     | Err e, _ => Err e
     | Ok _, Err e => Err e
     | Ok _, Ok _ => Err (UndefinedColumn "start")
     end, d).
Proof.
  unfold delete_edge, with_connection, execute_with, execute, delete_where,
    mbind, M_bind.
  destruct (dump_all [start; end_]) as [[]|e0]; simpl;
    [|by rewrite rollback_same].
  destruct (find_table edges_rel _ d) as [[s t]|e]; simpl;
    by rewrite rollback_same.
Qed.

(** [delete_node] never deletes either: when its first statement has
    removed node rows, the second one raises and the transaction is rolled
    back. *)
Lemma delete_node_eq (env : environ) (node_id : value) (d : db) :
  delete_node env node_id d =
    (match dump node_id, find_table nodes_rel (get_schema_name env) d with
     | Err e, _ => Err e
     | Ok _, Err e => Err e
     | Ok _, Ok (s, _) =>
         match node_id with
         | VInt _ => Err UndefinedFunction
         | VStr _ =>
             match edges s with
             | None => Err (UndefinedTable (get_schema_name env) "edges")
             | Some _ => Err (UndefinedColumn "start")
             end
         end
     end, d).
Proof.
  unfold delete_node, with_connection, execute_with, execute, delete_where,
    mbind, M_bind, dump_all.
  destruct (dump node_id) as [[]|e0] eqn:Ed; simpl;
    [|by rewrite rollback_same].
  destruct (find_table nodes_rel _ d) as [[s t]|e] eqn:E; simpl;
    [|by rewrite rollback_same].
  apply find_table_Ok in E as [Hs Ht]. simpl in Ht.
  destruct node_id as [z|name]; simpl; [by rewrite rollback_same|].
  unfold find_table; rewrite lookup_insert_eq; simpl.
  assert (∀ rows', rollback d (<[get_schema_name env :=
            {| nodes := Some {| rows := rows'; serial := serial t |};
               edges := edges s |}]> d) = d) as Hback.
  { intros rows'. rewrite (rollback_insert _ _ s) by done.
    apply insert_id. rewrite Hs. f_equal. destruct s as [n e]; simpl in *.
    subst n. unfold rollback_schema; simpl. rewrite keep_serial_same.
    by destruct t. }
  destruct (edges s); simpl; by rewrite Hback.
Qed.

(** *** The keys of reachable databases *)

Lemma table_inv_new {R} (rel : relation R) :
  table_inv rel {| rows := []; serial := 1 |}.
Proof. split; simpl; [apply NoDup_nil_2|apply Forall_nil_2]. Qed.

Lemma table_inv_skip {R} (rel : relation R) (t : table R) :
  table_inv rel t → table_inv rel {| rows := rows t; serial := serial t + 1 |}.
Proof.
  intros [Hnd Hlt]. split; simpl; [done|].
  eapply Forall_impl; [done|]. simpl. intros; lia.
Qed.

Lemma table_inv_snoc {R} (rel : relation R) (t : table R) (r : R) :
  table_inv rel t → rel_key rel r = serial t →
  table_inv rel {| rows := rows t ++ [r]; serial := serial t + 1 |}.
Proof.
  intros Hinv Hr. pose proof (serial_fresh rel t Hinv) as Hfresh.
  destruct Hinv as [Hnd Hlt]. split; simpl.
  - rewrite map_app; simpl. apply NoDup_app. split; [done|]. split.
    + intros x Hx ->%list_elem_of_singleton. by rewrite Hr in Hx.
    + apply NoDup_singleton.
  - apply Forall_app. split.
    + eapply Forall_impl; [done|]. simpl. intros; lia.
    + apply Forall_singleton. lia.
Qed.

Lemma db_inv_insert (d : db) (k : pystr) (s : schema) :
  db_inv d → schema_inv s → db_inv (<[k := s]> d).
Proof.
  intros Hd Hs i si. destruct (decide (k = i)) as [<-|Hne].
  - rewrite lookup_insert_eq. by intros [= <-].
  - rewrite lookup_insert_ne by done. apply Hd.
Qed.

Lemma db_inv_find {R} (rel : relation R) (sch : pystr) (d : db) s t :
  db_inv d → find_table rel sch d = Ok (s, t) → schema_inv s.
Proof. intros Hd [Hs _]%find_table_Ok. by apply (Hd sch). Qed.

(** Every call of the data-access layer keeps the keys of every table
    distinct and below the table's sequence. *)
Lemma run_inv (env : environ) (c : call) (d : db) :
  db_inv d → db_inv (run env c d).
Proof.
  intros Hd. destruct c as [|node|start end_| | |start end_|node_id]; simpl.
  - rewrite init_database_eq; simpl. apply db_inv_insert; [done|].
    destruct (d !! get_schema_name env) as [s|] eqn:E; simpl.
    + destruct (Hd _ _ E) as [Hn He].
      split; simpl; intros t [= <-].
      * destruct (nodes s); simpl; [by apply Hn|apply table_inv_new].
      * destruct (edges s); simpl; [by apply He|apply table_inv_new].
    + split; simpl; intros t [= <-]; apply table_inv_new.
  - rewrite add_node_eq.
    destruct (dump (VStr (strip node))) as [[]|e0]; [|done].
    destruct (find_table nodes_rel _ d) as [[s t]|e] eqn:E; [|done].
    pose proof (db_inv_find _ _ _ _ _ Hd E) as [Hn He].
    apply find_table_Ok in E as [Hs Ht]. specialize (Hn t Ht).
    destruct (INT4_MAX <? serial t); [done|].
    destruct (bool_decide _); simpl; apply db_inv_insert; try done;
      (split; simpl; [intros t' [= <-]|done]).
    + by apply table_inv_skip.
    + by apply table_inv_snoc.
  - rewrite add_edge_eq.
    destruct (get_nodes env d).1; [|done]. simpl.
    destruct (dict_get (strip start) _); [|done].
    destruct (dict_get (strip end_) _); [|done].
    destruct (find_table edges_rel _ d) as [[s t]|e] eqn:E; [|done].
    pose proof (db_inv_find _ _ _ _ _ Hd E) as [Hn He].
    apply find_table_Ok in E as [Hs Ht]. specialize (He t Ht).
    destruct (INT4_MAX <? serial t); [done|].
    destruct (bool_decide _); simpl; apply db_inv_insert; try done;
      (split; simpl; [done|intros t' [= <-]]).
    + by apply table_inv_skip.
    + by apply table_inv_snoc.
  - by rewrite get_edges_eq.
  - by rewrite get_nodes_eq.
  - by rewrite delete_edge_eq.
  - by rewrite delete_node_eq.
Qed.

Lemma reachable_inv (d : db) : reachable d → db_inv d.
Proof.
  induction 1 as [|env c d _ IH].
  - intros k s Hk. by rewrite lookup_empty in Hk.
  - by apply run_inv.
Qed.

(** In a reachable database the node list has distinct ids. *)
Lemma reachable_nodes_NoDup (env : environ) (d : db) (ns : list (Z * pystr)) :
  reachable d → get_nodes env d = (Ok ns, d) → NoDup (map fst ns).
Proof.
  intros Hd%reachable_inv. rewrite get_nodes_eq.
  destruct (find_table nodes_rel _ d) as [[s t]|e] eqn:E; [|done].
  intros [= <-]. rewrite map_map; simpl.
  pose proof (db_inv_find _ _ _ _ _ Hd E) as [Hn _].
  apply find_table_Ok in E as [_ Ht]. by destruct (Hn t Ht).
Qed.

(** *** The deletions on the small store *)

Lemma demo_db_reachable : reachable demo_db.
Proof. unfold demo_db. repeat apply reachable_call. apply reachable_empty. Qed.

Lemma demo_db_nodes :
  get_nodes demo_env demo_db = (Ok [(1, u "A"); (2, u "B")], demo_db).
Proof. rewrite get_nodes_eq. by vm_compute. Qed.

Lemma demo_db_edges :
  get_edges demo_env demo_db = (Ok [(1, 2)], demo_db).
Proof. rewrite get_edges_eq. by vm_compute. Qed.

(** C2. On the store with nodes (1, A) and (2, B) and the edge (1, 2),
    [delete_node("A")] raises the store's error for the unknown column
    [start]; the transaction is rolled back, so node A is still listed, and
    so is the edge that starts at it.  Called with the id, [delete_node(1)]
    fails in its first statement, which compares the name with an integer. *)
Theorem delete_node_deletes_nothing :
  delete_node demo_env (VStr (u "A")) demo_db
    = (Err (UndefinedColumn "start"), demo_db) ∧
  delete_node demo_env (VInt 1) demo_db = (Err UndefinedFunction, demo_db) ∧
  get_nodes demo_env demo_db = (Ok [(1, u "A"); (2, u "B")], demo_db) ∧
  get_edges demo_env demo_db = (Ok [(1, 2)], demo_db).
Proof.
  rewrite !delete_node_eq.
  split; [by vm_compute|]. split; [by vm_compute|].
  split; [apply demo_db_nodes|apply demo_db_edges].
Qed.

(** C5. On the same store, [delete_edge(1, 2)] raises the store's error for
    the unknown column [start] and the edge (1, 2) is still listed. *)
Theorem delete_edge_deletes_nothing :
  delete_edge demo_env (VInt 1) (VInt 2) demo_db
    = (Err (UndefinedColumn "start"), demo_db) ∧
  get_edges demo_env demo_db = (Ok [(1, 2)], demo_db).
Proof.
  rewrite delete_edge_eq. split; [by vm_compute|apply demo_db_edges].
Qed.

(** *** The namespace name *)

Lemma replace1_hyphen (s : pystr) :
  replace1 45 [] s = filter (fun c => c ≠ 45%N) s.
Proof.
  unfold replace1. induction s as [|c s IH]; [done|]. simpl.
  rewrite filter_cons, IH. destruct (N.eqb_spec c 45) as [->|Hc].
  - by destruct (decide (45%N ≠ 45%N)).
  - by destruct (decide (c ≠ 45%N)).
Qed.

Lemma user_part_eq (env : environ) :
  user_part env = replace1 45 [] (getenv (PGUSER env) []).
Proof.
  unfold user_part, get_schema_name. by rewrite app_assoc, drop_app_length.
Qed.

(** C7, as the code has it.  The namespace name is a function of the two
    identifiers alone (each with its fallback when unset): the application
    identifier, then [_schema_], then the user identifier with every hyphen
    removed and every other character kept, in order.  The user part of the
    name therefore holds no hyphen. *)
Theorem schema_name_strips_hyphens (env : environ) :
  let app := getenv (PGAPPNAME env) (u "my_app") in
  let user := getenv (PGUSER env) [] in
  get_schema_name env = app ++ u "_schema_" ++ user_part env ∧
  user_part env = filter (fun c => c ≠ 45%N) user ∧
  (45%N ∉ user_part env) ∧
  get_schema_name env
    = get_schema_name {| PGAPPNAME := Some app; PGUSER := Some user |}.
Proof.
  simpl. rewrite user_part_eq, replace1_hyphen.
  split; [|split; [|split]].
  - unfold get_schema_name. by rewrite replace1_hyphen.
  - done.
  - by intros [Hc _]%list_elem_of_filter.
  - done.
Qed.

(** C7, as stated, fails: a user identifier with a dot and an at sign keeps
    them, so the user part of the name is not alphanumeric. *)
Lemma schema_name_keeps_punctuation :
  ¬ Forall (fun c => alphanumeric c = true)
      (user_part {| PGAPPNAME := Some (u "graph");
                    PGUSER := Some (u "jane.doe@example.com") |}).
Proof.
  rewrite Forall_forall. intros H.
  specialize (H 46%N). vm_compute in H.
  discriminate H. apply list_elem_of_In. by do 4 right; left.
Qed.

(** *** The properties at work on the small store *)

Lemma add_edge_unknown_name_witness :
  ∃ key, (key = strip (u "A") ∨ key = strip (u " Z")) ∧
         add_edge demo_env (u "A") (u " Z") demo_db = (Err (KeyError key), demo_db) ∧
         get_edges demo_env (add_edge demo_env (u "A") (u " Z") demo_db).2
         = get_edges demo_env demo_db.
Proof.
  apply (add_edge_unknown_name demo_env (u "A") (u " Z") demo_db
           [(1, u "A"); (2, u "B")]).
  - rewrite get_nodes_eq. vm_compute. reflexivity.
  - right. apply (bool_decide_unpack _). vm_compute. exact I.
Defined.

Lemma resolution_last_wins_witness :
  ∃ i, dict_get (u "A") (swap_dict (dict_of [(1, u "A"); (2, u "A"); (3, u "B")]))
       = Some i ∧
       last_named (u "A") [(1, u "A"); (2, u "A"); (3, u "B")] = Some i ∧
       ∀ j, (j, u "A") ∈ [(1, u "A"); (2, u "A"); (3, u "B")] → j ≠ i →
            ∀ other,
              dict_get other (swap_dict (dict_of [(1, u "A"); (2, u "A"); (3, u "B")]))
              ≠ Some j.
Proof.
  apply (resolution_last_wins [(1, u "A"); (2, u "A"); (3, u "B")] (u "A")).
  - apply (bool_decide_unpack _). vm_compute. exact I.
  - vm_compute. lia.
Defined.



(* ===================================================================== *)
(** ** Further properties *)
(* ===================================================================== *)

(** *** Trimming *)

Lemma lstrip_clean (s : pystr) : clean_start (lstrip s).
Proof.
  induction s as [|c s IH]; simpl; [by intros c|].
  destruct (isspace c) eqn:E; [done|]. intros c' [= <-]. done.
Qed.

Lemma lstrip_id (s : pystr) : clean_start s → lstrip s = s.
Proof.
  destruct s as [|c s]; simpl; [done|]. intros H.
  by rewrite (H c eq_refl).
Qed.

Lemma lstrip_split (s : pystr) : ∃ l, s = l ++ lstrip s ∧ blank l.
Proof.
  induction s as [|c s (l & Hs & Hl)]; simpl.
  - exists []. split; [done|]. apply Forall_nil_2.
  - destruct (isspace c) eqn:E.
    + exists (c :: l). split; [simpl; by f_equal|]. by apply Forall_cons.
    + exists []. split; [done|]. apply Forall_nil_2.
Qed.

Lemma lstrip_blank (s : pystr) : blank s → lstrip s = [].
Proof.
  induction 1 as [|c s Hc _ IH]; simpl; [done|]. by rewrite Hc.
Qed.

(** The trimmed string sits in the middle of the original one, between two
    runs of whitespace. *)
Lemma strip_split (s : pystr) :
  ∃ l r, s = l ++ strip s ++ r ∧ blank l ∧ blank r.
Proof.
  destruct (lstrip_split s) as (l & Hs & Hl).
  destruct (lstrip_split (rev (lstrip s))) as (r & Hr & Hbr).
  exists l, (rev r). split; [|split; [done|by apply Forall_rev]].
  unfold strip, rstrip. rewrite <- rev_app_distr, <- Hr, rev_involutive.
  done.
Qed.

Lemma strip_clean_end (s : pystr) : clean_start (rev (strip s)).
Proof. unfold strip, rstrip. rewrite rev_involutive. apply lstrip_clean. Qed.

Lemma strip_clean_start (s : pystr) : clean_start (strip s).
Proof.
  destruct (lstrip_split (rev (lstrip s))) as (r & Hr & _).
  pose proof (lstrip_clean s) as Hc.
  apply (f_equal (@rev N)) in Hr. rewrite rev_involutive, rev_app_distr in Hr.
  unfold strip, rstrip. intros c Hhead.
  apply Hc. rewrite Hr.
  destruct (rev (lstrip (rev (lstrip s)))); [done|]. done.
Qed.

Lemma strip_fixed (s : pystr) :
  clean_start s → clean_start (rev s) → strip s = s.
Proof.
  intros H1 H2. unfold strip, rstrip.
  by rewrite (lstrip_id s), (lstrip_id (rev s)), rev_involutive.
Qed.

Lemma strip_idempotent (s : pystr) : strip (strip s) = strip s.
Proof. apply strip_fixed; [apply strip_clean_start|apply strip_clean_end]. Qed.

Lemma strip_blank (s : pystr) : strip s = [] ↔ blank s.
Proof.
  split.
  - intros H. destruct (strip_split s) as (l & r & Hs & Hl & Hr).
    rewrite H in Hs. rewrite Hs. by apply Forall_app.
  - intros H. unfold strip. by rewrite lstrip_blank.
Qed.

Lemma truthy_strip (s : pystr) : truthy (strip s) = false ↔ blank s.
Proof.
  rewrite <- strip_blank. unfold truthy, pystr_truthy.
  by destruct (strip s).
Qed.

(** *** Adding a node *)

(** C4, as the code has it.  On a database whose nodes table is there and
    can take one more row, [add_node] succeeds for every input string,
    empty or not, whose trimmed form the driver accepts as a parameter (no
    U+0000, nothing UTF-8 cannot encode).  The trimmed form is the input
    without its leading and trailing whitespace: the input is a run of
    whitespace, the trimmed form, and a run of whitespace, and the trimmed
    form neither begins nor ends with whitespace.  A listing afterwards is
    the previous node list followed by exactly one new entry, with the
    trimmed form as its name and an id that occurs nowhere in the previous
    list.  Nothing is asked of the name, so a name already in the list is
    appended all the same. *)
Theorem add_node_appends
    (env : environ) (input : pystr) (d : db) (ns : list (Z * pystr)) :
  get_nodes env d = (Ok ns, d) →
  nodes_ready env d →
  sendable (strip input) →
  (∃ l r, input = l ++ strip input ++ r ∧ blank l ∧ blank r) ∧
  clean_start (strip input) ∧ clean_start (rev (strip input)) ∧
  ∃ id d', add_node env input d = (Ok PyNone, d') ∧
           get_nodes env d' = (Ok (ns ++ [(id, strip input)]), d') ∧
           id ∉ map fst ns.
Proof.
  intros Hget (s & t & Hf & Hinv & Hmax) Hsend.
  split; [apply strip_split|].
  split; [apply strip_clean_start|]. split; [apply strip_clean_end|].
  rewrite get_nodes_eq, Hf in Hget. injection Hget as <-.
  pose proof (serial_fresh nodes_rel t Hinv) as Hfresh. simpl in Hfresh.
  eexists (serial t), _. rewrite add_node_eq, Hsend, Hf.
  destruct (Z.ltb_spec INT4_MAX (serial t)) as [?|_]; [lia|].
  rewrite bool_decide_eq_false_2 by done.
  split; [done|]. split.
  - rewrite get_nodes_eq, find_table_insert_nodes; simpl.
    by rewrite map_app.
  - by rewrite map_map.
Qed.

Lemma add_node_appends_witness :
  (∃ l r, u " A  " = l ++ u "A" ++ r ∧ blank l ∧ blank r) ∧
  clean_start (u "A") ∧ clean_start (rev (u "A")) ∧
  ∃ id d', add_node demo_env (u " A  ") demo_db = (Ok PyNone, d') ∧
           get_nodes demo_env d'
           = (Ok ([(1, u "A"); (2, u "B")] ++ [(id, u "A")]), d') ∧
           id ∉ map fst [(1, u "A"); (2, u "B")].
Proof.
  apply (add_node_appends demo_env (u " A  ") demo_db [(1, u "A"); (2, u "B")]).
  - rewrite get_nodes_eq. vm_compute. reflexivity.
  - eexists _, _. split; [vm_compute; reflexivity|]. split.
    + split; apply (bool_decide_unpack _); vm_compute; exact I.
    + vm_compute. discriminate.
  - vm_compute. reflexivity.
Defined.

(** C4, as stated, fails: the input [a] followed by U+0000 is not empty, yet
    the driver refuses it with [DataError] before the statement is sent, and
    the listing afterwards is the previous one, without a new entry. *)
Lemma add_node_refuses_nul :
  add_node demo_env [97%N; 0%N] demo_db = (Err DataError, demo_db) ∧
  get_nodes demo_env (add_node demo_env [97%N; 0%N] demo_db).2
  = (Ok [(1, u "A"); (2, u "B")], demo_db) ∧
  ¬ ∃ id, (get_nodes demo_env (add_node demo_env [97%N; 0%N] demo_db).2).1
          = Ok ([(1, u "A"); (2, u "B")] ++ [(id, strip [97%N; 0%N])]).
Proof.
  assert (add_node demo_env [97%N; 0%N] demo_db = (Err DataError, demo_db))
    as Hadd.
  { rewrite add_node_eq. vm_compute. reflexivity. }
  split; [done|]. rewrite Hadd. simpl.
  assert (get_nodes demo_env demo_db
          = (Ok [(1, u "A"); (2, u "B")], demo_db)) as Hget.
  { rewrite get_nodes_eq. vm_compute. reflexivity. }
  split; [done|]. rewrite Hget. simpl. intros (id & Hid). discriminate Hid.
Qed.

(** *** One call at a time *)

(** A call leaves the database alone, or replaces the namespace of its
    environment as [schema_step] says. *)
Lemma run_step (env : environ) (c : call) (d : db) :
  run env c d = d ∨
  ∃ s', schema_step (d !! get_schema_name env) c s' ∧
        run env c d = <[get_schema_name env := s']> d.
Proof.
  destruct c as [|node|start end_| | |start end_|node_id]; simpl.
  - right. rewrite init_database_eq; simpl. eexists. split; [apply step_init|].
    by destruct (d !! get_schema_name env).
  - rewrite add_node_eq.
    destruct (dump (VStr (strip node))) as [[]|e0]; [|by left].
    destruct (find_table nodes_rel _ d) as [[s t]|e] eqn:E; [|by left].
    apply find_table_Ok in E as [Hs Ht]; simpl in Ht.
    destruct (Z.ltb_spec INT4_MAX (serial t)) as [?|Hmax]; [by left|].
    right. destruct (bool_decide _) eqn:Ek; simpl; eexists; (split; [|done]).
    + by eapply step_node_skip.
    + apply bool_decide_eq_false in Ek. by eapply step_node.
  - rewrite add_edge_eq, get_nodes_eq; simpl.
    destruct (find_table nodes_rel _ d) as [[sn tn]|e] eqn:En; [|by left].
    destruct (dict_get (strip start) _) as [i|] eqn:Ei; [|by left].
    destruct (dict_get (strip end_) _) as [j|] eqn:Ej; [|by left].
    destruct (find_table edges_rel _ d) as [[s t]|e] eqn:E; [|by left].
    apply find_table_Ok in E as [Hs Ht]; simpl in Ht.
    apply find_table_Ok in En as [Hsn Htn]; simpl in Htn.
    assert (sn = s) as -> by congruence.
    destruct (Z.ltb_spec INT4_MAX (serial t)) as [?|Hmax]; [by left|].
    right. destruct (bool_decide _) eqn:Ek; simpl; eexists; (split; [|done]).
    + by eapply step_edge_skip.
    + apply bool_decide_eq_false in Ek.
      rewrite d_swap_get in Ei, Ej.
      apply last_named_elem, elem_of_dict_of, list_elem_of_fmap in Ei, Ej.
      destruct Ei as (ri & [= -> _] & Hi). destruct Ej as (rj & [= -> _] & Hj).
      eapply step_edge; try done; by apply list_elem_of_fmap_2.
  - left. by rewrite get_edges_eq.
  - left. by rewrite get_nodes_eq.
  - left. by rewrite delete_edge_eq.
  - left. by rewrite delete_node_eq.
Qed.

(** *** What every reachable database satisfies *)

Lemma table_sorted_new {R} (rel : relation R) : table_sorted rel new_table.
Proof.
  split; [apply SSorted_nil|]. split; [apply Forall_nil_2|].
  unfold INT4_MAX; simpl; lia.
Qed.

Lemma table_sorted_skip {R} (rel : relation R) (t : table R) :
  table_sorted rel t → serial t ≤ INT4_MAX →
  table_sorted rel {| rows := rows t; serial := serial t + 1 |}.
Proof.
  intros (Hs & Hk & Hb) Hmax. split; [done|]. split; simpl; [|lia].
  eapply Forall_impl; [done|]. simpl. intros; lia.
Qed.

Lemma table_sorted_snoc {R} (rel : relation R) (t : table R) (r : R) :
  table_sorted rel t → serial t ≤ INT4_MAX → rel_key rel r = serial t →
  table_sorted rel {| rows := rows t ++ [r]; serial := serial t + 1 |}.
Proof.
  intros (Hs & Hk & Hb) Hmax Hr. split; [|split]; simpl; [| |lia].
  - rewrite map_app; simpl. apply StronglySorted_app_2; [|done|].
    + intros x1 x2 Hx1 ->%list_elem_of_singleton.
      apply list_elem_of_fmap in Hx1 as (r1 & -> & Hr1).
      rewrite Forall_forall in Hk. specialize (Hk r1 Hr1). lia.
    + repeat constructor.
  - apply Forall_app. split.
    + eapply Forall_impl; [done|]. simpl. intros; lia.
    + apply Forall_singleton. lia.
Qed.

(** A step keeps a good namespace good. *)
Lemma step_good (o : option schema) (c : call) (s' : schema) :
  (∀ s, o = Some s → schema_good s) → schema_step o c s' → schema_good s'.
Proof.
  intros Ho Hstep.
  destruct Hstep as [|s t node -> Ht Hmax Hk|s t node -> Ht Hmax
                     |s tn t i j start end_ -> Htn Ht Hmax Hk Hi Hj
                     |s t start end_ -> Ht Hmax].
  - destruct o as [[n e]|]; simpl.
    + destruct (Ho _ eq_refl) as [Hgn Hge Hgm Hgr]. simpl in *.
      split; simpl.
      * intros t [= <-].
        destruct n; simpl; [by apply Hgn|apply table_sorted_new].
      * intros t [= <-].
        destruct e; simpl; [by apply Hge|apply table_sorted_new].
      * intros t r [= <-]. destruct n as [tn|]; simpl; [by apply Hgm|].
        by intros ?%elem_of_nil.
      * intros t e0 [= <-]. destruct e as [te|]; simpl;
          [|by intros ?%elem_of_nil].
        intros He0. destruct (Hgr te e0 eq_refl He0) as (tn & -> & ? & ?).
        by exists tn.
    + split; simpl.
      * intros t [= <-]. apply table_sorted_new.
      * intros t [= <-]. apply table_sorted_new.
      * intros t r [= <-]. by intros ?%elem_of_nil.
      * intros t e0 [= <-]. by intros ?%elem_of_nil.
  - destruct (Ho s eq_refl) as [Hgn Hge Hgm Hgr]. split; simpl.
    + intros t' [= <-]. by apply table_sorted_snoc; [apply Hgn| |].
    + done.
    + intros t' r [= <-]. simpl.
      intros [Hr| ->%list_elem_of_singleton]%elem_of_app; [by eapply Hgm|].
      simpl. apply strip_idempotent.
    + intros te e Hte He. destruct (Hgr te e Hte He) as (tn & Htn & Hs & He').
      assert (tn = t) as -> by congruence.
      eexists. split; [done|]. simpl. rewrite map_app.
      split; apply elem_of_app; by left.
  - destruct (Ho s eq_refl) as [Hgn Hge Hgm Hgr]. split; simpl.
    + intros t' [= <-]. by apply table_sorted_skip; [apply Hgn|].
    + done.
    + intros t' r [= <-]. simpl. by apply Hgm.
    + intros te e Hte He. destruct (Hgr te e Hte He) as (tn & Htn & Hs & He').
      assert (tn = t) as -> by congruence.
      by eexists.
  - destruct (Ho s eq_refl) as [Hgn Hge Hgm Hgr]. split; simpl.
    + done.
    + intros t' [= <-]. by apply table_sorted_snoc; [apply Hge| |].
    + done.
    + intros te e [= <-]. simpl.
      intros [He| ->%list_elem_of_singleton]%elem_of_app; [by eapply Hgr|].
      by exists tn.
  - destruct (Ho s eq_refl) as [Hgn Hge Hgm Hgr]. split; simpl.
    + done.
    + intros t' [= <-]. by apply table_sorted_skip; [apply Hge|].
    + done.
    + intros te e [= <-]. simpl. by apply Hgr.
Qed.

Lemma run_good (env : environ) (c : call) (d : db) :
  db_good d → db_good (run env c d).
Proof.
  intros Hd. destruct (run_step env c d) as [->|(s' & Hstep & ->)]; [done|].
  intros k s. destruct (decide (get_schema_name env = k)) as [<-|Hne].
  - rewrite lookup_insert_eq. intros [= <-].
    eapply step_good; [|done]. intros s0 Hs0. by eapply Hd.
  - rewrite lookup_insert_ne by done. apply Hd.
Qed.

Lemma reachable_good (d : db) : reachable d → db_good d.
Proof.
  induction 1 as [|env c d _ IH].
  - intros k s Hk. by rewrite lookup_empty in Hk.
  - by apply run_good.
Qed.

Lemma reachable_nodes_table (env : environ) (d : db) (ns : list (Z * pystr)) :
  reachable d → get_nodes env d = (Ok ns, d) →
  ∃ s t, d !! get_schema_name env = Some s ∧ nodes s = Some t ∧
         schema_good s ∧ ns = map (fun r => (node_id r, node_name r)) (rows t).
Proof.
  intros Hd%reachable_good. rewrite get_nodes_eq.
  destruct (find_table nodes_rel _ d) as [[s t]|e] eqn:E; [|done].
  intros [= <-]. apply find_table_Ok in E as [Hs Ht].
  exists s, t. split; [done|]. split; [done|]. split; [by eapply Hd|done].
Qed.

Lemma reachable_edges_table (env : environ) (d : db) (es : list (Z * Z)) :
  reachable d → get_edges env d = (Ok es, d) →
  ∃ s t, d !! get_schema_name env = Some s ∧ edges s = Some t ∧
         schema_good s ∧ es = map (fun r => (start_node r, end_node r)) (rows t).
Proof.
  intros Hd%reachable_good. rewrite get_edges_eq.
  destruct (find_table edges_rel _ d) as [[s t]|e] eqn:E; [|done].
  intros [= <-]. apply find_table_Ok in E as [Hs Ht].
  exists s, t. split; [done|]. split; [done|]. split; [by eapply Hd|done].
Qed.

(** X1. In every database the program can produce, each edge listed by
    [get_edges] starts and ends at an id listed by [get_nodes]: edges are
    only made from resolved ids and nothing is ever deleted, so no edge
    dangles. *)
Theorem reachable_no_dangling_edge
    (env : environ) (d : db) (ns : list (Z * pystr)) (es : list (Z * Z)) :
  reachable d →
  get_nodes env d = (Ok ns, d) → get_edges env d = (Ok es, d) →
  ∀ a b, (a, b) ∈ es → a ∈ map fst ns ∧ b ∈ map fst ns.
Proof.
  intros Hd Hn He a b Hab.
  destruct (reachable_nodes_table _ _ _ Hd Hn) as (s & tn & Hs & Htn & Hg & ->).
  destruct (reachable_edges_table _ _ _ Hd He) as (s' & te & Hs' & Hte & _ & ->).
  assert (s' = s) as -> by congruence.
  apply list_elem_of_fmap in Hab as (e & [= -> ->] & Hin).
  destruct (good_refs s Hg te e Hte Hin) as (tn' & Htn' & Ha & Hb).
  assert (tn' = tn) as -> by congruence.
  by rewrite map_map.
Qed.

Lemma reachable_no_dangling_edge_witness :
  1 ∈ map fst [(1, u "A"); (2, u "B")] ∧ 2 ∈ map fst [(1, u "A"); (2, u "B")].
Proof.
  apply (reachable_no_dangling_edge demo_env demo_db
           [(1, u "A"); (2, u "B")] [(1, 2)]).
  - unfold demo_db. repeat apply reachable_call. apply reachable_empty.
  - rewrite get_nodes_eq. vm_compute. reflexivity.
  - rewrite get_edges_eq. vm_compute. reflexivity.
  - apply (bool_decide_unpack _). vm_compute. exact I.
Defined.

(** X2. In every database the program can produce, the ids that [get_nodes]
    returns are pairwise distinct and each lies between 1 and the largest
    [integer], in whatever order the rows are listed. *)
Theorem reachable_ids_distinct_in_range
    (env : environ) (d : db) (ns : list (Z * pystr)) :
  reachable d → get_nodes env d = (Ok ns, d) →
  NoDup (map fst ns) ∧ Forall (fun i => 1 ≤ i ≤ INT4_MAX) (map fst ns).
Proof.
  intros Hd Hn. split; [by eapply reachable_nodes_NoDup|].
  destruct (reachable_nodes_table _ _ _ Hd Hn) as (s & t & Hs & Ht & Hg & ->).
  destruct (good_nodes s Hg t Ht) as (Hsort & Hk & Hb). simpl in *.
  rewrite map_map; simpl.
  apply Forall_fmap. eapply Forall_impl; [done|]. simpl. intros; lia.
Qed.

Lemma reachable_ids_distinct_in_range_witness :
  NoDup (map fst [(1, u "A"); (2, u "B")]) ∧
  Forall (fun i => 1 ≤ i ≤ INT4_MAX) (map fst [(1, u "A"); (2, u "B")]).
Proof.
  apply (reachable_ids_distinct_in_range demo_env demo_db).
  - unfold demo_db. repeat apply reachable_call. apply reachable_empty.
  - rewrite get_nodes_eq. vm_compute. reflexivity.
Defined.

(** X3. In every database the program can produce, every node name is
    trimmed: trimming it again changes nothing, and it neither begins nor
    ends with whitespace (it may be empty). *)
Theorem reachable_names_trimmed
    (env : environ) (d : db) (ns : list (Z * pystr)) :
  reachable d → get_nodes env d = (Ok ns, d) →
  ∀ i name, (i, name) ∈ ns →
            strip name = name ∧ clean_start name ∧ clean_start (rev name).
Proof.
  intros Hd Hn i name Hin.
  destruct (reachable_nodes_table _ _ _ Hd Hn) as (s & t & Hs & Ht & Hg & ->).
  apply list_elem_of_fmap in Hin as (r & [= -> ->] & Hr).
  pose proof (good_names s Hg t r Ht Hr) as Hfix.
  split; [done|]. rewrite <- Hfix.
  split; [apply strip_clean_start|apply strip_clean_end].
Qed.

Lemma reachable_names_trimmed_witness :
  strip (u "A") = u "A" ∧ clean_start (u "A") ∧ clean_start (rev (u "A")).
Proof.
  apply (reachable_names_trimmed demo_env
           (run demo_env (AddNode (u "  A ")) (run demo_env InitDatabase ∅))
           [(1, u "A")] ltac:(repeat apply reachable_call; apply reachable_empty)
           ltac:(rewrite get_nodes_eq; vm_compute; reflexivity) 1).
  apply (bool_decide_unpack _). vm_compute. exact I.
Defined.

(** *** Calls and the rows already stored *)

Lemma get_nodes_insert_ne (env : environ) (k : pystr) (s' : schema) (d : db) :
  k ≠ get_schema_name env →
  (get_nodes env (<[k := s']> d)).1 = (get_nodes env d).1.
Proof.
  intros Hne. rewrite !get_nodes_eq; simpl. unfold find_table.
  by rewrite lookup_insert_ne.
Qed.

Lemma get_edges_insert_ne (env : environ) (k : pystr) (s' : schema) (d : db) :
  k ≠ get_schema_name env →
  (get_edges env (<[k := s']> d)).1 = (get_edges env d).1.
Proof.
  intros Hne. rewrite !get_edges_eq; simpl. unfold find_table.
  by rewrite lookup_insert_ne.
Qed.

Lemma get_nodes_insert_eq (env : environ) (s' : schema) (d : db) :
  (get_nodes env (<[get_schema_name env := s']> d)).1 =
    match nodes s' with
    | Some t => Ok (map (fun r => (node_id r, node_name r)) (rows t))
    | None => Err (UndefinedTable (get_schema_name env) "nodes")
    end.
Proof.
  rewrite get_nodes_eq; simpl. unfold find_table.
  rewrite lookup_insert_eq; simpl. by destruct (nodes s').
Qed.

Lemma get_edges_insert_eq (env : environ) (s' : schema) (d : db) :
  (get_edges env (<[get_schema_name env := s']> d)).1 =
    match edges s' with
    | Some t => Ok (map (fun r => (start_node r, end_node r)) (rows t))
    | None => Err (UndefinedTable (get_schema_name env) "edges")
    end.
Proof.
  rewrite get_edges_eq; simpl. unfold find_table.
  rewrite lookup_insert_eq; simpl. by destruct (edges s').
Qed.

Ltac same_rows :=
  exists []; rewrite app_nil_r; split; [done|]; split; [simpl; lia|done].

(** In the model a call extends the stored rows at the end. *)
Lemma calls_extend_rows (env env' : environ) (c : call) (d : db) :
  (∀ ns, get_nodes env d = (Ok ns, d) →
         ∃ extra, (get_nodes env (run env' c d)).1 = Ok (ns ++ extra) ∧
                  (length extra ≤ 1)%nat ∧
                  ((∀ node, c ≠ AddNode node) → extra = [])) ∧
  (∀ es, get_edges env d = (Ok es, d) →
         ∃ extra, (get_edges env (run env' c d)).1 = Ok (es ++ extra) ∧
                  (length extra ≤ 1)%nat ∧
                  ((∀ start end_, c ≠ AddEdge start end_) → extra = [])).
Proof.
  split.
  - intros ns Hn.
    assert ((get_nodes env d).1 = Ok ns) as Hn1 by by rewrite Hn.
    destruct (run_step env' c d) as [->|(s' & Hstep & ->)].
    { by same_rows. }
    destruct (decide (get_schema_name env' = get_schema_name env)) as [Hk|Hk];
      [|rewrite get_nodes_insert_ne by done; by same_rows].
    rewrite Hk in *. rewrite get_nodes_insert_eq.
    rewrite get_nodes_eq in Hn.
    destruct (find_table nodes_rel _ d) as [[s0 t0]|e] eqn:E; [|done].
    injection Hn as <-. apply find_table_Ok in E as [Hs0 Ht0]. simpl in Ht0.
    rewrite Hs0 in Hstep.
    inversion Hstep as [|s t node [= <-] Ht Hmax Hfresh|s t node [= <-] Ht Hmax
                        |s tn t i j st en [= <-] Htn Ht Hmax Hfresh Hi Hj
                        |s t st en [= <-] Ht Hmax]; subst; simpl.
    + rewrite Ht0; simpl. by same_rows.
    + assert (t = t0) as -> by congruence.
      eexists [_]. rewrite map_app; simpl. split; [done|]. split; [lia|].
      intros Hc. by destruct (Hc node).
    + assert (t = t0) as -> by congruence.
      by same_rows.
    + rewrite Ht0. by same_rows.
    + rewrite Ht0. by same_rows.
  - intros es He.
    destruct (run_step env' c d) as [->|(s' & Hstep & ->)].
    { rewrite He. by same_rows. }
    destruct (decide (get_schema_name env' = get_schema_name env)) as [Hk|Hk];
      [|rewrite get_edges_insert_ne, He by done; by same_rows].
    rewrite Hk in *. rewrite get_edges_insert_eq.
    rewrite get_edges_eq in He.
    destruct (find_table edges_rel _ d) as [[s0 t0]|e] eqn:E; [|done].
    injection He as <-. apply find_table_Ok in E as [Hs0 Ht0]. simpl in Ht0.
    rewrite Hs0 in Hstep.
    inversion Hstep as [|s t node [= <-] Ht Hmax Hfresh|s t node [= <-] Ht Hmax
                        |s tn t i j st en [= <-] Htn Ht Hmax Hfresh Hi Hj
                        |s t st en [= <-] Ht Hmax]; subst; simpl.
    + rewrite Ht0; simpl. by same_rows.
    + rewrite Ht0. by same_rows.
    + rewrite Ht0. by same_rows.
    + assert (t = t0) as -> by congruence.
      eexists [_]. rewrite map_app; simpl. split; [done|]. split; [lia|].
      intros Hc. by destruct (Hc st en).
    + assert (t = t0) as -> by congruence.
      by same_rows.
Qed.

(** X5. No call removes a stored row.  Whatever the database and whichever
    call is made, under the same or another environment, the node list read
    after the call holds, up to the order of the listing, the rows of the
    node list read before it and at most one more, and more only after
    [add_node].  The same holds of the edge list, which only [add_edge]
    extends.  The two delete functions are among the calls. *)
Theorem calls_never_remove_rows (env env' : environ) (c : call) (d : db) :
  (∀ ns, get_nodes env d = (Ok ns, d) →
         ∃ ns' extra, (get_nodes env (run env' c d)).1 = Ok ns' ∧
                      ns' ≡ₚ ns ++ extra ∧ (length extra ≤ 1)%nat ∧
                      ((∀ node, c ≠ AddNode node) → extra = [])) ∧
  (∀ es, get_edges env d = (Ok es, d) →
         ∃ es' extra, (get_edges env (run env' c d)).1 = Ok es' ∧
                      es' ≡ₚ es ++ extra ∧ (length extra ≤ 1)%nat ∧
                      ((∀ start end_, c ≠ AddEdge start end_) → extra = [])).
Proof.
  destruct (calls_extend_rows env env' c d) as [Hnodes Hedges]. split.
  - intros ns Hn. destruct (Hnodes ns Hn) as (extra & H1 & H2 & H3).
    by exists (ns ++ extra), extra.
  - intros es He. destruct (Hedges es He) as (extra & H1 & H2 & H3).
    by exists (es ++ extra), extra.
Qed.

Lemma calls_never_remove_rows_witness :
  ∃ ns' extra,
    (get_nodes demo_env (run demo_env (AddNode (u "A")) demo_db)).1 = Ok ns' ∧
    ns' ≡ₚ [(1, u "A"); (2, u "B")] ++ extra ∧ (length extra ≤ 1)%nat ∧
    ((∀ node, AddNode (u "A") ≠ AddNode node) → extra = []).
Proof.
  apply (proj1 (calls_never_remove_rows demo_env demo_env
                  (AddNode (u "A")) demo_db)).
  rewrite get_nodes_eq. vm_compute. reflexivity.
Defined.

(** *** Namespaces that coincide *)

Lemma replace1_app (old : N) (new s1 s2 : pystr) :
  replace1 old new (s1 ++ s2) = replace1 old new s1 ++ replace1 old new s2.
Proof. unfold replace1. apply flat_map_app. Qed.

(** X7. Hyphens in the user identifier do not tell namespaces apart: an
    identifier with a hyphen anywhere in it and the same identifier without
    it give the same namespace name, so under both the same node list and
    the same edge list are read, from any database. *)
Theorem hyphen_shares_namespace (app : option pystr) (a b : pystr) (d : db) :
  let with_hyphen := {| PGAPPNAME := app; PGUSER := Some (a ++ 45%N :: b) |} in
  let without := {| PGAPPNAME := app; PGUSER := Some (a ++ b) |} in
  get_schema_name with_hyphen = get_schema_name without ∧
  get_nodes with_hyphen d = get_nodes without d ∧
  get_edges with_hyphen d = get_edges without d.
Proof.
  simpl.
  assert (get_schema_name {| PGAPPNAME := app; PGUSER := Some (a ++ 45%N :: b) |}
          = get_schema_name {| PGAPPNAME := app; PGUSER := Some (a ++ b) |})
    as Hname.
  { unfold get_schema_name, getenv; simpl.
    by rewrite !replace1_app. }
  by rewrite !get_nodes_eq, !get_edges_eq, Hname.
Qed.

(** *** Calls that always raise *)

(** X8. Neither delete function ever deletes.  For every database and every
    argument, [delete_edge] and [delete_node] raise and leave the database
    exactly as it was.  Once the two tables are there and the arguments are
    values the driver accepts, [delete_edge] fails on the column [start],
    and so does [delete_node] when given a name. *)
Theorem deletes_always_raise (env : environ) (d : db) :
  (∀ start end_, ∃ e, delete_edge env start end_ d = (Err e, d)) ∧
  (∀ node_id, ∃ e, delete_node env node_id d = (Err e, d)) ∧
  (initialised env d →
   (∀ start end_,
      dump start = Ok tt → dump end_ = Ok tt →
      delete_edge env start end_ d = (Err (UndefinedColumn "start"), d)) ∧
   (∀ name,
      sendable name →
      delete_node env (VStr name) d = (Err (UndefinedColumn "start"), d))).
Proof.
  split; [|split].
  - intros start end_. rewrite delete_edge_eq.
    destruct (dump_all _) as [[]|e0]; [|by eexists].
    destruct (find_table edges_rel _ d) as [[s t]|e]; by eexists.
  - intros node_id. rewrite delete_node_eq.
    destruct (dump node_id) as [[]|e0]; [|by eexists].
    destruct (find_table nodes_rel _ d) as [[s t]|e]; [|by eexists].
    destruct node_id; [by eexists|]. destruct (edges s); by eexists.
  - intros (s & tn & te & Hs & Hn & He). split.
    + intros start end_ H1 H2. rewrite delete_edge_eq. simpl.
      rewrite H1, H2.
      by rewrite (proj2 (find_table_Ok edges_rel _ d s te) (conj Hs He)).
    + intros name Hname. rewrite delete_node_eq. rewrite Hname.
      rewrite (proj2 (find_table_Ok nodes_rel _ d s tn) (conj Hs Hn)).
      by rewrite He.
Qed.

Lemma deletes_always_raise_witness :
  delete_edge demo_env (VInt 1) (VStr (u "2")) demo_db
  = (Err (UndefinedColumn "start"), demo_db) ∧
  delete_node demo_env (VStr (u "B")) demo_db
  = (Err (UndefinedColumn "start"), demo_db).
Proof.
  assert (initialised demo_env demo_db) as Hinit.
  { eexists _, _, _. vm_compute. repeat split; reflexivity. }
  split.
  - apply (proj1 (proj2 (proj2 (deletes_always_raise demo_env demo_db)) Hinit));
      reflexivity.
  - apply (proj2 (proj2 (proj2 (deletes_always_raise demo_env demo_db)) Hinit)).
    reflexivity.
Defined.



(** *** Names that resolve *)

Lemma last_named_is_Some (ns : list (Z * pystr)) (name : pystr) :
  is_Some (last_named name ns) ↔ name ∈ map snd ns.
Proof.
  unfold last_named. rewrite fmap_is_Some, last_is_Some. split.
  - intros Hne. destruct (filter _ ns) as [|[i n] l] eqn:E; [done|].
    assert ((i, n) ∈ filter (fun kv : Z * pystr => kv.2 = name) ns) as Hin.
    { rewrite E. by left. }
    apply list_elem_of_filter in Hin as [Hn Hin]. simpl in Hn; subst n.
    change name with (snd (i, name)). by apply list_elem_of_fmap_2.
  - intros ([i n] & -> & Hin)%list_elem_of_fmap Hnil. simpl in Hnil.
    assert ((i, n) ∈ filter (fun kv : Z * pystr => kv.2 = n) ns) as Hf.
    { by apply list_elem_of_filter. }
    rewrite Hnil in Hf. by apply elem_of_nil in Hf.
Qed.

Lemma NoDup_snd_functional {A B} (l : list (A * B)) x1 x2 y :
  NoDup (map snd l) → (x1, y) ∈ l → (x2, y) ∈ l → x1 = x2.
Proof.
  induction l as [|[a b] l IH]; simpl; intros Hnd H1 H2.
  - by apply elem_of_nil in H1.
  - apply NoDup_cons in Hnd as [Hb Hnd].
    assert (∀ x, (x, b) ∈ l → False) as Hout.
    { intros x Hx. apply Hb. change b with (snd (x, b)).
      by apply list_elem_of_fmap_2. }
    apply elem_of_cons in H1 as [H1|H1]; apply elem_of_cons in H2 as [H2|H2];
      simplify_eq; try done.
    + by destruct (Hout _ H2).
    + by destruct (Hout _ H1).
    + by apply IH.
Qed.

(** X10. Over a node list with distinct ids, the name resolution of
    [add_edge] succeeds exactly for the names that occur in the list, and
    the id it returns carries the name; when the names are distinct too, a
    name resolves to an id exactly when the list pairs them. *)
Theorem resolution_finds_listed_names (ns : list (Z * pystr)) (name : pystr) :
  NoDup (map fst ns) →
  (is_Some (dict_get name (swap_dict (dict_of ns))) ↔ name ∈ map snd ns) ∧
  (∀ i, dict_get name (swap_dict (dict_of ns)) = Some i → (i, name) ∈ ns) ∧
  (NoDup (map snd ns) →
   ∀ i, dict_get name (swap_dict (dict_of ns)) = Some i ↔ (i, name) ∈ ns).
Proof.
  intros Hnd. rewrite d_swap_get, dict_of_NoDup by done. unfold items.
  split; [apply last_named_is_Some|]. split; [apply last_named_elem|].
  intros Hnames i. split; [apply last_named_elem|]. intros Hin.
  destruct (proj2 (last_named_is_Some ns name)) as [i' Hi'].
  { change name with (snd (i, name)). by apply list_elem_of_fmap_2. }
  rewrite Hi'. f_equal. apply last_named_elem in Hi'.
  by apply (NoDup_snd_functional ns i' i name).
Qed.

Lemma resolution_finds_listed_names_witness :
  (is_Some (dict_get (u "B") (swap_dict (dict_of [(1, u "A"); (2, u "B")])))
   ↔ u "B" ∈ map snd [(1, u "A"); (2, u "B")]) ∧
  (∀ i, dict_get (u "B") (swap_dict (dict_of [(1, u "A"); (2, u "B")])) = Some i →
        (i, u "B") ∈ [(1, u "A"); (2, u "B")]) ∧
  (NoDup (map snd [(1, u "A"); (2, u "B")]) →
   ∀ i, dict_get (u "B") (swap_dict (dict_of [(1, u "A"); (2, u "B")])) = Some i
        ↔ (i, u "B") ∈ [(1, u "A"); (2, u "B")]).
Proof.
  apply (resolution_finds_listed_names [(1, u "A"); (2, u "B")] (u "B")).
  apply (bool_decide_unpack _). vm_compute. exact I.
Defined.

(** In the model, [add_edge] puts the new pair at the end of the listing;
    with names that repeat, the ids are those that come last. *)
Lemma add_edge_links
    (env : environ) (start end_ : pystr) (d : db)
    (ns : list (Z * pystr)) (es : list (Z * Z)) (i j : Z) :
  get_nodes env d = (Ok ns, d) → get_edges env d = (Ok es, d) →
  NoDup (map fst ns) →
  last_named (strip start) ns = Some i → last_named (strip end_) ns = Some j →
  edges_ready env d →
  ∃ d', add_edge env start end_ d = (Ok PyNone, d') ∧
        get_edges env d' = (Ok (es ++ [(i, j)]), d') ∧
        get_nodes env d' = (Ok ns, d').
Proof.
  intros Hn He Hnd Hi Hj (s & t & Hf & Hinv & Hmax).
  pose proof (serial_fresh edges_rel t Hinv) as Hfresh. simpl in Hfresh.
  rewrite get_edges_eq, Hf in He. injection He as <-.
  eexists. rewrite add_edge_eq, Hn; simpl.
  rewrite !d_swap_get, dict_of_NoDup by done. unfold items.
  rewrite Hi, Hj, Hf.
  destruct (Z.ltb_spec INT4_MAX (serial t)) as [?|_]; [lia|].
  rewrite bool_decide_eq_false_2 by done.
  split; [done|]. split.
  - rewrite get_edges_eq, find_table_insert_edges; simpl. by rewrite map_app.
  - rewrite get_nodes_eq in Hn. rewrite get_nodes_eq.
    apply find_table_Ok in Hf as [Hs Ht].
    unfold find_table in *. rewrite lookup_insert_eq. rewrite Hs in Hn.
    simpl in *. destruct (nodes s); [|done]. by injection Hn as <-.
Qed.

Lemma last_named_distinct (ns : list (Z * pystr)) (name : pystr) (i : Z) :
  NoDup (map snd ns) → (i, name) ∈ ns → last_named name ns = Some i.
Proof.
  intros Hnames Hin.
  destruct (proj2 (last_named_is_Some ns name)) as [i' Hi'].
  { change name with (snd (i, name)). by apply list_elem_of_fmap_2. }
  rewrite Hi'. f_equal. apply last_named_elem in Hi'.
  by apply (NoDup_snd_functional ns i' i name).
Qed.

(** X11. [add_edge] between two names of a node list with distinct ids and
    distinct names, on an edges table that can take one more row, succeeds:
    it returns [None], the edge list afterwards holds, up to the order of
    the listing, the previous edges and the pair of the ids of the two
    names, and the node list is unchanged.  The two names may be the same
    (a loop), and the pair may already be in the edge list (it is added
    again). *)
Theorem add_edge_appends
    (env : environ) (start end_ : pystr) (d : db)
    (ns : list (Z * pystr)) (es : list (Z * Z)) (i j : Z) :
  get_nodes env d = (Ok ns, d) → get_edges env d = (Ok es, d) →
  NoDup (map fst ns) → NoDup (map snd ns) →
  (i, strip start) ∈ ns → (j, strip end_) ∈ ns →
  edges_ready env d →
  ∃ d' es', add_edge env start end_ d = (Ok PyNone, d') ∧
            get_edges env d' = (Ok es', d') ∧ es' ≡ₚ (i, j) :: es ∧
            get_nodes env d' = (Ok ns, d').
Proof.
  intros Hn He Hids Hnames Hi Hj Hready.
  destruct (add_edge_links env start end_ d ns es i j) as (d' & H1 & H2 & H3);
    try done; try by apply last_named_distinct.
  exists d', (es ++ [(i, j)]). split; [done|]. split; [done|].
  split; [|done]. symmetry. apply Permutation_cons_append.
Qed.

Lemma add_edge_appends_witness :
  ∃ d' es', add_edge demo_env (u "B") (u " B") demo_db = (Ok PyNone, d') ∧
            get_edges demo_env d' = (Ok es', d') ∧ es' ≡ₚ (2, 2) :: [(1, 2)] ∧
            get_nodes demo_env d' = (Ok [(1, u "A"); (2, u "B")], d').
Proof.
  apply (add_edge_appends demo_env (u "B") (u " B") demo_db
           [(1, u "A"); (2, u "B")] [(1, 2)] 2 2).
  - rewrite get_nodes_eq. vm_compute. reflexivity.
  - rewrite get_edges_eq. vm_compute. reflexivity.
  - apply (bool_decide_unpack _). vm_compute. exact I.
  - apply (bool_decide_unpack _). vm_compute. exact I.
  - apply (bool_decide_unpack _). vm_compute. exact I.
  - apply (bool_decide_unpack _). vm_compute. exact I.
  - eexists _, _. split; [vm_compute; reflexivity|]. split.
    + split; apply (bool_decide_unpack _); vm_compute; exact I.
    + vm_compute. discriminate.
Defined.

(** *** A run of the script, step by step *)

Lemma display_graph_eq (env : environ) (w : world) :
  display_graph env w =
    match (get_nodes env (store w)).1, (get_edges env (store w)).1 with
    | Ok ns, Ok es =>
        (Ok (network_of ns es),
         {| store := store w;
            page := page w ++ [Subheader (u "Interactive Vizualisation in Apps")] |})
    | Err e, _ => (Err e, w)
    | Ok _, Err e => (Err e, w)
    end.
Proof.
  unfold display_graph, mbind, M_bind, lift_db, emit.
  rewrite get_nodes_eq; simpl.
  destruct (find_table nodes_rel _ (store w)) as [[sn tn]|e]; simpl;
    [|by destruct w].
  rewrite get_edges_eq; simpl.
  destruct (find_table edges_rel _ (store w)) as [[se te]|e]; simpl;
    [done|by destruct w].
Qed.

Lemma bind_eq {S A B} (m : M S A) (k : A → M S B) (s : S) :
  (m ≫= k) s = match m s with
               | (Ok a, s') => k a s'
               | (Err e, s') => (Err e, s')
               end.
Proof. reflexivity. Qed.

Lemma form_eq (c : bool) (m : M db pyvalue) (ev : ui_event) (w0 : world) :
  (∀ d v d', m d = (Ok v, d') → v = PyNone) →
  (if c then r ← lift_db m; if truthy r then emit ev else mret tt
   else mret tt) w0
  = match (if c then m (store w0) else (Ok PyNone, store w0)) with
    | (Ok _, d') => (Ok tt, {| store := d'; page := page w0 |})
    | (Err e, d') => (Err e, {| store := d'; page := page w0 |})
    end.
Proof.
  intros Hm. destruct c; [|by destruct w0].
  rewrite bind_eq. unfold lift_db.
  destruct (m (store w0)) as [[v|e] d'] eqn:E; [|done].
  by rewrite (Hm _ _ _ E).
Qed.

(** What [main] does, in terms of the calls it makes: [init_database], then
    [add_node] if the node form is taken, then [add_edge] if the edge form
    is taken, then the two reads; an exception ends the run where it is
    raised, with the page as drawn so far. *)
Lemma main_eq (env : environ) (inp : form_input) (w : world) :
  main env inp w =
    let d1 := (init_database env (store w)).2 in
    match (if node_form_taken inp
           then add_node env (strip (node_text inp)) d1
           else (Ok PyNone, d1)) with
    | (Err e, d2) =>
        (Err e, {| store := d2; page := page w ++ take 4 page_frame |})
    | (Ok _, d2) =>
        match (if edge_form_taken inp
               then add_edge env (strip (start_text inp))
                      (strip (end_text inp)) d2
               else (Ok PyNone, d2)) with
        | (Err e, d3) =>
            (Err e, {| store := d3; page := page w ++ take 6 page_frame |})
        | (Ok _, d3) =>
            match (get_nodes env d3).1, (get_edges env d3).1 with
            | Ok ns, Ok es =>
                (Ok tt,
                 {| store := d3;
                    page := page w ++ page_frame ++ [Html (network_of ns es)] |})
            | Err e, _ =>
                (Err e, {| store := d3; page := page w ++ take 7 page_frame |})
            | Ok _, Err e =>
                (Err e, {| store := d3; page := page w ++ take 7 page_frame |})
            end
        end
    end.
Proof.
  unfold main, node_form_taken, edge_form_taken.
  change (truthy (node_submitted inp)) with (node_submitted inp).
  change (truthy (edge_submitted inp)) with (edge_submitted inp).
  rewrite bind_eq. cbn [emit].
  rewrite bind_eq. cbn [emit store page].
  rewrite bind_eq. cbn [emit store page].
  rewrite bind_eq. unfold lift_db at 1. cbn [store page].
  pose proof (init_database_eq env (store w)) as Hinit.
  destruct (init_database env (store w)) as [ok d1]. injection Hinit as -> _.
  cbn [snd].
  rewrite bind_eq. cbn [truthy pyvalue_truthy negb mret M_ret].
  rewrite bind_eq. cbn [emit store page].
  rewrite bind_eq.
  rewrite form_eq by (intros d v d' H; by apply add_node_success in H as [-> _]).
  cbn [store page truthy bool_truthy].
  destruct (if node_submitted inp && truthy (strip (node_text inp))
            then add_node env (strip (node_text inp)) d1
            else (Ok PyNone, d1)) as [[v|e] d2];
    [|by rewrite <- !app_assoc].
  rewrite bind_eq. cbn [emit store page].
  rewrite bind_eq. cbn [emit store page].
  rewrite bind_eq.
  rewrite form_eq by (intros d v' d' H; by apply add_edge_success in H as [-> _]).
  cbn [store page truthy bool_truthy].
  destruct (if edge_submitted inp && truthy (strip (start_text inp))
               && truthy (strip (end_text inp))
            then add_edge env (strip (start_text inp)) (strip (end_text inp)) d2
            else (Ok PyNone, d2)) as [[v'|e] d3];
    [|by rewrite <- !app_assoc].
  rewrite bind_eq. cbn [emit store page].
  rewrite bind_eq, display_graph_eq. cbn [store page].
  destruct (get_nodes env d3).1 as [ns|e]; [|by rewrite <- !app_assoc].
  destruct (get_edges env d3).1 as [es|e]; [|by rewrite <- !app_assoc].
  unfold emit; cbn [store page]. by rewrite <- !app_assoc.
Qed.

Lemma init_initialised (env : environ) (d : db) :
  initialised env (init_database env d).2.
Proof.
  rewrite init_database_eq; simpl. eexists _, _, _.
  by rewrite lookup_insert_eq.
Qed.

Lemma initialised_reads (env : environ) (d : db) :
  initialised env d →
  ∃ ns es, get_nodes env d = (Ok ns, d) ∧ get_edges env d = (Ok es, d).
Proof.
  intros (s & tn & te & Hs & Hn & He).
  rewrite get_nodes_eq, get_edges_eq. unfold find_table. rewrite Hs; simpl.
  rewrite Hn, He. by eexists _, _.
Qed.

Lemma node_form_not_taken (inp : form_input) :
  node_form_taken inp = false ↔
  node_submitted inp = false ∨ blank (node_text inp).
Proof.
  unfold node_form_taken. rewrite andb_false_iff. by rewrite truthy_strip.
Qed.

Lemma edge_form_not_taken (inp : form_input) :
  edge_form_taken inp = false ↔
  edge_submitted inp = false ∨ blank (start_text inp) ∨ blank (end_text inp).
Proof.
  unfold edge_form_taken. rewrite !andb_false_iff, !truthy_strip. tauto.
Qed.


